(** * Undo feature of the editor: UndoCommand and UndoEngine

    Shallow embedding of [src/unnamed/part_001] (the current [UndoCommand],
    second class of the file, and the earlier one, first class, in module
    [Old]) and of [src/src/undoengine.js] ([UndoEngine]).

    The document model, its history and the range transformation primitives
    belong to the engine package, not to this repository: they are the
    fields of the [Host] interface below, and every theorem is stated for an
    arbitrary host. Identity of JS objects (batches, deltas) is modelled by
    numeric identifiers. A thrown exception ([TypeError]) is the outcome
    [Thrown], together with the state reached when it was thrown. *)

From Stdlib Require Import List Bool Arith ZArith Lia String Permutation Sorted.
Import ListNotations.
Open Scope list_scope.

(** ** Data model *)

(** A model position: root identity, path of the parent, offset in it.
    ([Position#path] is [parent ++ [offset]]; [offset] is its last item.) *)
Record Position := mkPosition {
  root : nat;
  parent : list nat;
  offset : nat
}.

Record Range := mkRange {
  start : Position;
  end_ : Position
}.

(** Operation types handled by the command; [OtherOperation] stands for the
    remaining ones (attribute, root attribute), listing the roots they touch. *)
Inductive MoveType := MtMove | MtRemove | MtReinsert.

Inductive Operation :=
| InsertOperation (position : Position) (nodeCount : nat)
| MoveOperation (mtype : MoveType) (sourcePosition targetPosition : Position)
    (howMany : nat) (movedRangeStart : Position)
| OtherOperation (roots : list nat).

(** [operation.sourcePosition] and [operation.position] ([undefined] when the
    operation has no such field). *)
Definition op_sourcePosition (o : Operation) : option Position :=
  match o with
  | MoveOperation _ s _ _ _ => Some s
  | _ => None
  end.

Definition op_position (o : Operation) : option Position :=
  match o with
  | InsertOperation p _ => Some p
  | _ => None
  end.

(** Delta classes; [MoveDeltaClass] is every delta that is [instanceof MoveDelta]. *)
Inductive DeltaClass := MoveDeltaClass | InsertDeltaClass | OtherDeltaClass.

(** The batch a delta belongs to, as seen from the delta ([delta.batch]):
    its identity and its [type] ([None] is [undefined]). *)
Record BatchTag := mkBatchTag {
  tagId : nat;
  tagType : option string
}.

Record Delta := mkDelta {
  did : nat;
  dclass : DeltaClass;
  operations : list Operation;
  baseVersion : nat;
  dbatch : option BatchTag
}.

Record Batch := mkBatch {
  bid : nat;
  btype : option string;
  deltas : list Delta
}.

(** Selection state saved with a batch. *)
Record SelectionState := mkSelectionState {
  ranges : list Range;
  isBackward : bool
}.

Record Item := mkItem {
  ibatch : Batch;
  iselection : SelectionState
}.

(** [UndoCommand] fields: [_items], [_batchRegistry] (a WeakSet of batch
    identities), [_type], [_originalDeltas] (a WeakMap from delta identity to
    delta, as an association list whose first entry wins). *)
Record UndoCommand := mkUndoCommand {
  items : list Item;
  batchRegistry : list nat;
  ctype : string;
  originalDeltas : list (nat * Delta)
}.

(** [constructor( editor, type )] *)
Definition newUndoCommand (type : string) : UndoCommand :=
  {| items := []; batchRegistry := []; ctype := type; originalDeltas := [] |}.

(** Outcome of a call: returned normally, or threw. *)
Inductive Outcome (A : Type) :=
| Returned (a : A)
| Thrown.
Arguments Returned {A} a.
Arguments Thrown {A}.

(** ** The host: document, history, selection and range primitives *)

Class Host := {
  Doc : Type;
  (** [document.applyOperation( operation )] *)
  applyOperation : Doc -> Operation -> Doc;
  (** [document.history.getTransformedDelta( delta )] *)
  getTransformedDelta : Doc -> Delta -> list Delta;
  (** [document.history.getDeltas( baseVersion )] *)
  getDeltas : Doc -> nat -> list Delta;
  (** [delta.getReversed()] *)
  getReversed : Delta -> Delta;
  (** [document.selection.getRanges()], [.isBackward], [.setRanges( r, back )] *)
  selectionRanges : Doc -> list Range;
  selectionIsBackward : Doc -> bool;
  setRanges : Doc -> list Range -> bool -> Doc;
  (** [document.graveyard] (the root identity) *)
  graveyard : nat;
  (** identity of the batch built by [new Batch( doc )] *)
  freshBatchId : Doc -> nat;
  (** [range.getTransformedByInsertion( position, howMany, true, false )] *)
  getTransformedByInsertion : Range -> Position -> nat -> list Range;
  (** [range.getTransformedByMove( source, target, howMany, true, false )] *)
  getTransformedByMove : Range -> Position -> Position -> nat -> list Range;
  (** [Position#isBefore], [isAfter], [isEqual], [isTouching] *)
  isBefore : Position -> Position -> bool;
  isAfter : Position -> Position -> bool;
  isEqual : Position -> Position -> bool;
  isTouching : Position -> Position -> bool
}.

Section UndoCommandModel.

Context `{H : Host}.

(** ** [addBatch], [clearStack] *)

Definition registryHas (c : UndoCommand) (b : Batch) : bool :=
  existsb (Nat.eqb (bid b)) (batchRegistry c).

Definition addBatch (doc : Doc) (c : UndoCommand) (b : Batch) : UndoCommand :=
  if registryHas c b then c
  else
    let selection := {| ranges := selectionRanges doc;
                        isBackward := selectionIsBackward doc |} in
    {| items := items c ++ [ {| ibatch := b; iselection := selection |} ];
       batchRegistry := bid b :: batchRegistry c;
       ctype := ctype c;
       originalDeltas := originalDeltas c |}.

Definition clearStack (c : UndoCommand) : UndoCommand :=
  {| items := []; batchRegistry := batchRegistry c; ctype := ctype c;
     originalDeltas := originalDeltas c |}.

(** [_checkEnabled()]: the value [refreshState] gives [isEnabled]. *)
Definition _checkEnabled (c : UndoCommand) : bool := 0 <? List.length (items c).

(** ** Taking the item out of [_items] (lines 281-290) *)

(** [Array#findIndex]: [-1] when nothing matches. *)
Fixpoint findIndexFrom {A} (p : A -> bool) (l : list A) (i : Z) : Z :=
  match l with
  | [] => (-1)%Z
  | x :: l' => if p x then i else findIndexFrom p l' (i + 1)
  end.

(** [Array#splice( start, 1 )]: the removed element (if any) and the array left. *)
Definition removeAt {A} (l : list A) (n : nat) : list A :=
  firstn n l ++ skipn (S n) l.

Definition splice1 {A} (l : list A) (i : Z) : option A * list A :=
  let len := Z.of_nat (List.length l) in
  let s := if (i <? 0)%Z then Z.max (len + i) 0 else Z.min i len in
  (nth_error l (Z.to_nat s), removeAt l (Z.to_nat s)).

(** [WeakSet#delete( batch )]; [delete( null )] does nothing. *)
Definition registryDelete (batch : option Batch) (reg : list nat) : list nat :=
  match batch with
  | Some b => filter (fun k => negb (k =? bid b)) reg
  | None => reg
  end.

Definition takeItem (c : UndoCommand) (batch : option Batch)
  : option Item * UndoCommand :=
  let batchIndex :=
    match batch with
    | Some b => findIndexFrom (fun a => bid (ibatch a) =? bid b) (items c) 0
    | None => (Z.of_nat (List.length (items c)) - 1)%Z
    end in
  let (undoItem, rest) := splice1 (items c) batchIndex in
  (undoItem,
   {| items := rest; batchRegistry := registryDelete batch (batchRegistry c);
      ctype := ctype c; originalDeltas := originalDeltas c |}).

(** ** [postFix] (lines 430-479) *)

(** [originalDeltas.get( delta )] *)
Definition lookupOriginal (m : list (nat * Delta)) (k : nat) : option Delta :=
  match find (fun e => fst e =? k) m with
  | Some (_, d) => Some d
  | None => None
  end.

(** [!hDelta.batch || ( type != 'undo' && type != 'redo' )], negated. *)
Definition fromUndoOrRedo (t : option BatchTag) : bool :=
  match t with
  | Some tag =>
      match tagType tag with
      | Some s => (s =? "undo")%string || (s =? "redo")%string
      | None => false
      end
  | None => false
  end.

Definition isMoveDelta (d : Delta) : bool :=
  match dclass d with MoveDeltaClass => true | _ => false end.

(** [op.sourcePosition || op.position] *)
Definition sourceOrPosition (o : Operation) : option Position :=
  match op_sourcePosition o with
  | Some p => Some p
  | None => op_position o
  end.

(** [position.offset += n] *)
Definition shiftOffset (p : Position) (n : nat) : Position :=
  {| root := root p; parent := parent p; offset := offset p + n |}.

(** Body of the inner loop for one [upDelta] and one [hDelta]; [None] is a
    [TypeError] (an [undefined] field dereferenced). *)
Definition postFixStep (orig : list (nat * Delta)) (upDelta hDelta : Delta)
  : option Delta :=
  if negb (isMoveDelta hDelta) then Some upDelta
  else if negb (fromUndoOrRedo (dbatch hDelta)) then Some upDelta
  else
    match operations upDelta, operations hDelta with
    | upOp :: upRest, hOp :: _ =>
        match upOp, hOp with
        | MoveOperation mt src tgt hm mrs, MoveOperation _ _ htgt hHowMany _ =>
            if isEqual tgt htgt then
              match lookupOriginal orig (did upDelta),
                    lookupOriginal orig (did hDelta) with
              | Some origUpDelta, Some origHDelta =>
                  match operations origUpDelta, operations origHDelta with
                  | origUpOp :: _, origHOp :: _ =>
                      match sourceOrPosition origUpOp, sourceOrPosition origHOp with
                      | Some upPos, Some hPos =>
                          if isAfter upPos hPos then
                            Some {| did := did upDelta; dclass := dclass upDelta;
                                    operations :=
                                      MoveOperation mt src (shiftOffset tgt hHowMany) hm
                                        (shiftOffset mrs hHowMany) :: upRest;
                                    baseVersion := baseVersion upDelta;
                                    dbatch := dbatch upDelta |}
                          else Some upDelta
                      | _, _ => None
                      end
                  | _, _ => None
                  end
              | _, _ => Some upDelta
              end
            else Some upDelta
        | _, _ => None
        end
    | _, _ => None
    end.

(** [for ( let hDelta of historyDeltas )] for one [upDelta]. *)
Fixpoint postFixHistory (orig : list (nat * Delta)) (upDelta : Delta)
  (historyDeltas : list Delta) : option Delta :=
  match historyDeltas with
  | [] => Some upDelta
  | hDelta :: hs =>
      match postFixStep orig upDelta hDelta with
      | Some u => postFixHistory orig u hs
      | None => None
      end
  end.

(** [postFix( deltas, historyDeltas )]; the deltas are updated in place,
    here returned updated. *)
Fixpoint postFix (orig : list (nat * Delta)) (ds historyDeltas : list Delta)
  : option (list Delta) :=
  match ds with
  | [] => Some []
  | upDelta :: us =>
      let fixedUp :=
        if isMoveDelta upDelta then postFixHistory orig upDelta historyDeltas
        else Some upDelta in
      match fixedUp, postFix orig us historyDeltas with
      | Some u, Some us' => Some (u :: us')
      | _, _ => None
      end
  end.

(** History deltas the post-fix looks at: MoveDeltas of an 'undo' or 'redo' batch. *)
Definition reversionMove (h : Delta) : bool := isMoveDelta h && fromUndoOrRedo (dbatch h).

(** ** The reversion loop (lines 302-321) *)

Record LoopState := mkLoopState {
  ldoc : Doc;
  lorig : list (nat * Delta);
  lbatch : list Delta
}.

(** [reversionBatch.addDelta( delta )] sets [delta.batch]. *)
Definition addDelta (tag : BatchTag) (d : Delta) : Delta :=
  {| did := did d; dclass := dclass d; operations := operations d;
     baseVersion := baseVersion d; dbatch := Some tag |}.

Definition applyDelta (doc : Doc) (d : Delta) : Doc :=
  fold_left applyOperation (operations d) doc.

Fixpoint addAndApply (tag : BatchTag) (ds : list Delta) (s : LoopState) : LoopState :=
  match ds with
  | [] => s
  | d :: ds' =>
      addAndApply tag ds'
        {| ldoc := applyDelta (ldoc s) d; lorig := lorig s;
           lbatch := lbatch s ++ [addDelta tag d] |}
  end.

(** [originalDeltas.set( delta, undoDelta )] for every updated delta. *)
Definition setOriginals (updated : list Delta) (undoDelta : Delta)
  (m : list (nat * Delta)) : list (nat * Delta) :=
  fold_left (fun m d => (did d, undoDelta) :: m) updated m.

(** The boolean is [false] when [postFix] threw. *)
Fixpoint revertLoop (tag : BatchTag) (undoDeltas : list Delta) (s : LoopState)
  : LoopState * bool :=
  match undoDeltas with
  | [] => (s, true)
  | undoDelta :: rest =>
      let undoDeltaReversed := getReversed undoDelta in
      let updatedDeltas := getTransformedDelta (ldoc s) undoDeltaReversed in
      let orig := setOriginals updatedDeltas undoDelta (lorig s) in
      let s1 := {| ldoc := ldoc s; lorig := orig; lbatch := lbatch s |} in
      match postFix orig updatedDeltas (getDeltas (ldoc s) (baseVersion undoDelta)) with
      | Some fixed => revertLoop tag rest (addAndApply tag fixed s1)
      | None => (s1, false)
      end
  end.

(** ** Selection transformation (lines 323-424) *)

Definition transformByOperation (r : Range) (o : Operation) : option (list Range) :=
  match o with
  | InsertOperation p n => Some (getTransformedByInsertion r p n)
  | MoveOperation _ s t hm _ => Some (getTransformedByMove r s t hm)
  | OtherOperation _ => None
  end.

(** The [for ( let t = 0; ... )] loop: each range is replaced by its result,
    and [t] skips the pieces just spliced in. *)
Fixpoint transformAllByOperation (o : Operation) (transformed : list Range)
  : list Range :=
  match transformed with
  | [] => []
  | r :: rs =>
      match transformByOperation r o with
      | Some result => result ++ transformAllByOperation o rs
      | None => r :: transformAllByOperation o rs
      end
  end.

Definition transformByDeltas (originalRange : Range) (ds : list Delta) : list Range :=
  fold_left
    (fun tr delta => fold_left (fun tr o => transformAllByOperation o tr)
                       (operations delta) tr)
    ds [originalRange].

(** [( a, b ) => a.start.isBefore( b.start ) ? -1 : 1] *)
Definition compareStarts (a b : Range) : Z :=
  if isBefore (start a) (start b) then (-1)%Z else 1%Z.

(** [Array#sort] with that comparator, as the insertion sort JS engines run
    on short arrays: an element moves left past every [tmp] with
    [compare( tmp, element ) > 0]. The sorted prefix is kept reversed. *)
Fixpoint insertSorted (el : Range) (revPrefix : list Range) : list Range :=
  match revPrefix with
  | [] => [el]
  | tmp :: rest =>
      if (0 <? compareStarts tmp el)%Z then tmp :: insertSorted el rest
      else el :: tmp :: rest
  end.

Definition sortRanges (l : list Range) : list Range :=
  rev (fold_left (fun acc x => insertSorted x acc) l []).

(** The touching-ranges loop: [a.end = b.end], drop [b], look at [a] again. *)
Fixpoint coalesce (a : Range) (rest : list Range) : list Range :=
  match rest with
  | [] => [a]
  | b :: rest' =>
      if isTouching (end_ a) (start b)
      then coalesce {| start := start a; end_ := end_ b |} rest'
      else a :: coalesce b rest'
  end.

Definition coalesceAll (l : list Range) : list Range :=
  match l with
  | [] => []
  | a :: rest => coalesce a rest
  end.

Definition notInGraveyard (r : Range) : bool :=
  negb (root (start r) =? graveyard).

(** The surviving range for one [originalRange]. *)
Definition transformRange (originalRange : Range) (ds : list Delta) : option Range :=
  find notInGraveyard (coalesceAll (sortRanges (transformByDeltas originalRange ds))).

Fixpoint transformRangesAcc (rs : list Range) (ds : list Delta)
  (transformedRanges : list Range) : list Range :=
  match rs with
  | [] => transformedRanges
  | r :: rs' =>
      match transformRange r ds with
      | Some t => transformRangesAcc rs' ds (transformedRanges ++ [t])
      | None => transformRangesAcc rs' ds transformedRanges
      end
  end.

Definition transformRanges (rs : list Range) (ds : list Delta) : list Range :=
  transformRangesAcc rs ds [].

Definition restoreSelection (doc : Doc) (selectionState : SelectionState)
  (ds : list Delta) : Doc :=
  match transformRanges (ranges selectionState) ds with
  | [] => doc
  | transformedRanges => setRanges doc transformedRanges (isBackward selectionState)
  end.

(** ** [_doExecute( batch = null )] *)

(** Returns the document, the command and, on a normal return, the reverted
    batch (the [revert] event argument) with the reversion batch. *)
Definition _doExecute (doc : Doc) (c : UndoCommand) (batch : option Batch)
  : Doc * UndoCommand * Outcome (Batch * Batch) :=
  let (undoItem, c1) := takeItem c batch in
  match undoItem with
  | None => (doc, c1, Thrown)
  | Some item =>
      let undoBatch := ibatch item in
      let undoDeltas := rev (deltas undoBatch) in
      let rbId := freshBatchId doc in
      let tag := {| tagId := rbId; tagType := Some (ctype c) |} in
      let (s, ok) := revertLoop tag undoDeltas
                       {| ldoc := doc; lorig := originalDeltas c1; lbatch := [] |} in
      let c2 := {| items := items c1; batchRegistry := batchRegistry c1;
                   ctype := ctype c1; originalDeltas := lorig s |} in
      if ok then
        match deltas undoBatch with
        | [] => (ldoc s, c2, Thrown)
        | d0 :: _ =>
            let doc' := restoreSelection (ldoc s) (iselection item)
                          (getDeltas (ldoc s) (baseVersion d0)) in
            (doc', c2,
             Returned (undoBatch,
                       {| bid := rbId; btype := Some (ctype c); deltas := lbatch s |}))
        end
      else (ldoc s, c2, Thrown)
  end.

(** ** [UndoEngine#init]: the document [change] listener *)

Definition changeListener (doc : Doc) (undoCommand redoCommand : UndoCommand)
  (batch : Batch) : UndoCommand * UndoCommand :=
  match btype batch with
  | None => (addBatch doc undoCommand batch, clearStack redoCommand)
  | Some t =>
      if (t =? "undo")%string then (undoCommand, addBatch doc redoCommand batch)
      else if (t =? "redo")%string then (addBatch doc undoCommand batch, redoCommand)
      else (undoCommand, redoCommand)
  end.

(** Orders used to state what the comparator sort produces: [a] may precede
    [b] when [b]'s start is not before [a]'s. *)
Definition startNotBefore (a b : Range) : Prop := isBefore (start b) (start a) = false.
Definition revOrder (x y : Range) : Prop := startNotBefore y x.

(** [d'] is [d], or [d] with the target and moved-range start of its first
    (move) operation both shifted by the same amount: what [postFix] may do. *)
Definition shiftedBy (d d' : Delta) : Prop :=
  d' = d \/
  exists mt src tgt hm mrs rest n,
    operations d = MoveOperation mt src tgt hm mrs :: rest /\
    d' = {| did := did d; dclass := dclass d;
            operations := MoveOperation mt src (shiftOffset tgt n) hm
                            (shiftOffset mrs n) :: rest;
            baseVersion := baseVersion d; dbatch := dbatch d |}.

End UndoCommandModel.

(** ** The document-root check described for the change listener *)

(** Roots an operation touches. *)
Definition operationRoots (o : Operation) : list nat :=
  match o with
  | InsertOperation p _ => [root p]
  | MoveOperation _ s t _ _ => [root s; root t]
  | OtherOperation rs => rs
  end.

(** Whether some operation of some delta of the batch touches a document root
    (the filter the change listener is described to apply). *)
Definition touchesDocumentRoot (isDocumentRoot : nat -> bool) (b : Batch) : bool :=
  existsb (fun d => existsb (fun o => existsb isDocumentRoot (operationRoots o))
                      (operations d))
    (deltas b).

(** ** Stack invariants *)

Section Invariants.

Context `{H : Host}.

Definition itemIds (c : UndoCommand) : list nat :=
  map (fun i => bid (ibatch i)) (items c).

(** Every batch on the stack appears once and is in the registry. *)
Definition stackWellFormed (c : UndoCommand) : Prop :=
  NoDup (itemIds c) /\ incl (itemIds c) (batchRegistry c).

(** Commands reachable from the constructor through the command's methods. *)
Inductive reachable : UndoCommand -> Prop :=
| reachable_new t : reachable (newUndoCommand t)
| reachable_addBatch c doc b : reachable c -> reachable (addBatch doc c b)
| reachable_clearStack c : reachable c -> reachable (clearStack c)
| reachable_doExecute c doc batch :
    reachable c -> reachable (snd (fst (_doExecute doc c batch))).

(** Records [(doc, batch)] in order, as the change listener does. *)
Definition addBatches (c : UndoCommand) (calls : list (Doc * Batch)) : UndoCommand :=
  fold_left (fun c call => addBatch (fst call) c (snd call)) calls c.

End Invariants.

(** ** The earlier [UndoCommand] (first class of [src/unnamed/part_001])

    A stack of batches ([_batchStack]) and a WeakMap from batch to the
    selection ranges saved with it ([_batchSelection]; an association list
    whose first entry wins, [set] puts the new entry in front). *)

Module Old.

Record UndoCommand := mkUndoCommand {
  batchStack : list Batch;
  batchSelection : list (nat * list Range)
}.

(** [constructor( editor )] *)
Definition newUndoCommand : UndoCommand :=
  {| batchStack := []; batchSelection := [] |}.

Section OldModel.

Context `{H : Host}.

(** [_batchSelection.get( batch )] *)
Definition selectionGet (m : list (nat * list Range)) (k : nat) : option (list Range) :=
  match find (fun e => fst e =? k) m with
  | Some (_, r) => Some r
  | None => None
  end.

(** [addBatch( batch )]: push, and save the current selection ranges. *)
Definition addBatch (doc : Doc) (c : UndoCommand) (b : Batch) : UndoCommand :=
  {| batchStack := batchStack c ++ [b];
     batchSelection := (bid b, selectionRanges doc) :: batchSelection c |}.

(** [clearStack()]: [_batchStack = []], then [_batchSelection.clear()], which
    throws a [TypeError]: a WeakMap has no [clear] method. The command is left
    with an empty stack and its saved selections. *)
Definition clearStack (c : UndoCommand) : UndoCommand * Outcome unit :=
  ({| batchStack := []; batchSelection := batchSelection c |}, Thrown).

(** [_checkEnabled()] *)
Definition _checkEnabled (c : UndoCommand) : bool := 0 <? List.length (batchStack c).

(** [this._batchStack[ batchIndex ] ? batchIndex : this._batchStack.length - 1]:
    [None] is an [undefined] argument; a batch object is truthy, an index out
    of the array gives [undefined]. *)
Definition resolveIndex (stack : list Batch) (batchIndex : option Z) : Z :=
  let len := Z.of_nat (List.length stack) in
  match batchIndex with
  | Some i => if ((0 <=? i) && (i <? len))%Z then i else (len - 1)%Z
  | None => (len - 1)%Z
  end.

(** Lines 90-99: reverse, transform and apply each delta in turn. *)
Fixpoint revertDeltas (doc : Doc) (undoDeltas : list Delta) : Doc :=
  match undoDeltas with
  | [] => doc
  | undoDelta :: rest =>
      let undoDeltaReversed := getReversed undoDelta in
      let updatedDeltas := getTransformedDelta doc undoDeltaReversed in
      revertDeltas (fold_left applyDelta updatedDeltas doc) rest
  end.

(** [_doExecute( batchIndex )]; on a normal return, the batch of the [undo]
    event. [undoBatch.deltas] on [undefined], [deltas[ 0 ].baseVersion] of an
    empty batch and iterating [undefined] saved ranges throw. The selection
    transformation (lines 101-182) is the one of the current command;
    [setRanges( transformedRanges )] sets a forward selection. *)
Definition _doExecute (doc : Doc) (c : UndoCommand) (batchIndex : option Z)
  : Doc * UndoCommand * Outcome Batch :=
  let idx := resolveIndex (batchStack c) batchIndex in
  let (undoBatch, rest) := splice1 (batchStack c) idx in
  let c1 := {| batchStack := rest; batchSelection := batchSelection c |} in
  match undoBatch with
  | None => (doc, c1, Thrown)
  | Some ub =>
      let doc1 := revertDeltas doc (rev (deltas ub)) in
      let savedRanges := selectionGet (batchSelection c) (bid ub) in
      match deltas ub with
      | [] => (doc1, c1, Thrown)
      | d0 :: _ =>
          let ds := getDeltas doc1 (baseVersion d0) in
          match savedRanges with
          | None => (doc1, c1, Thrown)
          | Some rs =>
              let doc2 := match transformRanges rs ds with
                          | [] => doc1
                          | transformedRanges => setRanges doc1 transformedRanges false
                          end in
              (doc2, c1, Returned ub)
          end
      end
  end.

(** Every batch on the stack has saved selection ranges. *)
Definition selectionsCover (c : UndoCommand) : Prop :=
  forall b, In b (batchStack c) -> selectionGet (batchSelection c) (bid b) <> None.

(** Commands reachable from the constructor through the command's methods. *)
Inductive reachable : UndoCommand -> Prop :=
| reachable_new : reachable newUndoCommand
| reachable_addBatch c doc b : reachable c -> reachable (addBatch doc c b)
| reachable_clearStack c : reachable c -> reachable (fst (clearStack c))
| reachable_doExecute c doc i :
    reachable c -> reachable (snd (fst (_doExecute doc c i))).

End OldModel.

End Old.

(** ** A concrete host, to run the model on small inputs *)

Module Concrete.

Record CDoc := mkCDoc {
  applied : list Operation;
  selRanges : list Range;
  selBackward : bool;
  history : list Delta;
  nextId : nat
}.

Fixpoint lexLt (a b : list nat) : bool :=
  match a, b with
  | [], [] => false
  | [], _ :: _ => true
  | _ :: _, [] => false
  | x :: xs, y :: ys => (x <? y) || ((x =? y) && lexLt xs ys)
  end.

Definition path (p : Position) : list nat := parent p ++ [offset p].

Definition posEqb (p q : Position) : bool :=
  (root p =? root q) && (if list_eq_dec Nat.eq_dec (path p) (path q) then true else false).

Definition posBefore (p q : Position) : bool :=
  (root p =? root q) && lexLt (path p) (path q).

Definition pos (r o : nat) : Position := {| root := r; parent := []; offset := o |}.

Definition reverseOperation (o : Operation) : Operation :=
  match o with
  | InsertOperation p n => MoveOperation MtRemove p (pos 0 0) n (pos 0 0)
  | MoveOperation mt s t hm mrs => MoveOperation mt mrs s hm s
  | OtherOperation rs => OtherOperation rs
  end.

Definition reverseDelta (d : Delta) : Delta :=
  {| did := did d + 1000; dclass := dclass d;
     operations := map reverseOperation (rev (operations d));
     baseVersion := baseVersion d; dbatch := None |}.

Definition host : Host := {|
  Doc := CDoc;
  applyOperation d o :=
    {| applied := applied d ++ [o]; selRanges := selRanges d;
       selBackward := selBackward d; history := history d; nextId := nextId d |};
  getTransformedDelta _ r := [r];
  getDeltas d v := filter (fun x => v <=? baseVersion x) (history d);
  getReversed := reverseDelta;
  selectionRanges := selRanges;
  selectionIsBackward := selBackward;
  setRanges d rs b :=
    {| applied := applied d; selRanges := rs; selBackward := b;
       history := history d; nextId := nextId d |};
  graveyard := 0;
  freshBatchId := nextId;
  getTransformedByInsertion r p n :=
    if posBefore (start r) p && posBefore p (end_ r)
    then [ {| start := shiftOffset p n; end_ := shiftOffset (end_ r) n |};
           {| start := start r; end_ := p |} ]
    else [r];
  getTransformedByMove r s t _ :=
    if posEqb (start r) s then [ {| start := t; end_ := t |} ] else [r];
  isBefore := posBefore;
  isAfter p q := posBefore q p;
  isEqual := posEqb;
  isTouching := posEqb
|}.

Definition emptyDoc : CDoc :=
  {| applied := []; selRanges := [ {| start := pos 1 3; end_ := pos 1 3 |} ];
     selBackward := true; history := []; nextId := 50 |}.

(** A user batch inserting two characters at offset 0 of root 1. *)
Definition userDelta : Delta :=
  {| did := 1; dclass := InsertDeltaClass;
     operations := [InsertOperation (pos 1 0) 2]; baseVersion := 0; dbatch := None |}.

Definition userBatch : Batch := {| bid := 7; btype := None; deltas := [userDelta] |}.

Definition otherBatch : Batch := {| bid := 8; btype := None; deltas := [userDelta] |}.

(** A batch whose only operation inserts into root 4, a detached fragment. *)
Definition detachedBatch : Batch :=
  {| bid := 9; btype := None;
     deltas := [ {| did := 2; dclass := InsertDeltaClass;
                    operations := [InsertOperation (pos 4 0) 3];
                    baseVersion := 0; dbatch := None |} ] |}.

(** Post-fix scenario: a rebased move [fixU] targeting offset 5 and two
    reversion moves of the history, the first targeting offset 5, the second
    offset 7. *)
Definition undoTag : BatchTag := {| tagId := 60; tagType := Some "undo"%string |}.

Definition moveDelta (i : nat) (src tgt : Position) (n : nat) (tag : option BatchTag)
  : Delta :=
  {| did := i; dclass := MoveDeltaClass;
     operations := [MoveOperation MtMove src tgt n tgt];
     baseVersion := 0; dbatch := tag |}.

Definition fixU : Delta := moveDelta 500 (pos 1 9) (pos 1 5) 1 None.
Definition fixH1 : Delta := moveDelta 501 (pos 1 0) (pos 1 5) 2 (Some undoTag).
Definition fixH2 : Delta := moveDelta 502 (pos 1 0) (pos 1 7) 3 (Some undoTag).
Definition fixOrig : list (nat * Delta) :=
  [ (500, moveDelta 400 (pos 1 8) (pos 1 30) 1 None);
    (501, moveDelta 401 (pos 1 1) (pos 1 30) 1 None);
    (502, moveDelta 402 (pos 1 1) (pos 1 30) 1 None) ].

Definition targetOf (d : Delta) : option Position :=
  match operations d with
  | MoveOperation _ _ t _ _ :: _ => Some t
  | _ => None
  end.

(** Two user moves recorded in order; the history holds a reversion move whose
    identity is the rebased reversal of the second one. *)
Definition move11 : Delta := moveDelta 11 (pos 1 5) (pos 1 20) 1 None.
Definition move12 : Delta := moveDelta 12 (pos 1 2) (pos 1 30) 1 None.
Definition moveBatch1 : Batch := {| bid := 21; btype := None; deltas := [move11] |}.
Definition moveBatch2 : Batch := {| bid := 22; btype := None; deltas := [move12] |}.

Definition movesDoc : CDoc :=
  {| applied := []; selRanges := [ {| start := pos 1 3; end_ := pos 1 3 |} ];
     selBackward := false;
     history := [ moveDelta 1012 (pos 1 30) (pos 1 5) 3 (Some undoTag) ];
     nextId := 70 |}.

Definition movesCommand : UndoCommand :=
  @addBatches host (newUndoCommand "undo") [ (movesDoc, moveBatch1); (movesDoc, moveBatch2) ].

(** A range split by an insertion inside it. *)
Definition wideRange : Range := {| start := pos 1 1; end_ := pos 1 6 |}.
Definition insertInside : Delta :=
  {| did := 3; dclass := InsertDeltaClass;
     operations := [InsertOperation (pos 1 4) 2]; baseVersion := 0; dbatch := None |}.

(** A user batch of two deltas: [userDelta], then an insertion of one
    character at offset 2 of root 1. *)
Definition secondDelta : Delta :=
  {| did := 4; dclass := InsertDeltaClass;
     operations := [InsertOperation (pos 1 2) 1]; baseVersion := 0; dbatch := None |}.

Definition twoDeltaBatch : Batch :=
  {| bid := 11; btype := None; deltas := [userDelta; secondDelta] |}.

(** A batch without deltas. *)
Definition emptyBatch : Batch := {| bid := 10; btype := None; deltas := [] |}.

(** An attribute change on root 1. *)
Definition attrDelta : Delta :=
  {| did := 5; dclass := OtherDeltaClass; operations := [OtherOperation [1]];
     baseVersion := 0; dbatch := None |}.

(** An earlier-style command holding the user batch and then [otherBatch]. *)
Definition oldOfTwo : Old.UndoCommand :=
  @Old.addBatch host emptyDoc (@Old.addBatch host emptyDoc Old.newUndoCommand userBatch)
    otherBatch.

(** An undo command holding the two-delta batch. *)
Definition undoOfTwo : UndoCommand :=
  @addBatch host emptyDoc (newUndoCommand "undo") twoDeltaBatch.

(** An undo command holding the user batch. *)
Definition undoOfUser : UndoCommand :=
  @addBatch host emptyDoc (newUndoCommand "undo") userBatch.

End Concrete.

(** * Theorems *)

(** ** The concrete host *)

Lemma lexLt_asym a b : Concrete.lexLt a b = true -> Concrete.lexLt b a = false.
Proof.
  revert b; induction a as [|x a IH]; intros [|y b]; simpl; try congruence.
  intros E. apply orb_true_iff in E as [E|E].
  - apply Nat.ltb_lt in E. apply orb_false_iff. split.
    + apply Nat.ltb_ge. lia.
    + apply andb_false_iff. left. apply Nat.eqb_neq. lia.
  - apply andb_true_iff in E as [E1 E2]. apply Nat.eqb_eq in E1; subst.
    rewrite Nat.ltb_irrefl, Nat.eqb_refl. simpl. now apply IH.
Qed.

Lemma posBefore_asym p q : Concrete.posBefore p q = true -> Concrete.posBefore q p = false.
Proof.
  unfold Concrete.posBefore. intros E. apply andb_true_iff in E as [E1 E2].
  apply andb_false_iff. right. now apply lexLt_asym.
Qed.

(** ** Array and registry lemmas *)

Section ListFacts.

Context {A : Type}.

Lemma removeAt_cons_0 (x : A) (l : list A) : removeAt (x :: l) 0 = l.
Proof. reflexivity. Qed.

Lemma removeAt_cons_S (x : A) (l : list A) n :
  removeAt (x :: l) (S n) = x :: removeAt l n.
Proof. reflexivity. Qed.

Lemma removeAt_incl (l : list A) n : incl (removeAt l n) l.
Proof.
  revert n; induction l as [|x l IH]; intros [|n]; simpl.
  - intros y [].
  - intros y [].
  - intros y Hy; now right.
  - rewrite removeAt_cons_S. intros y [<-|Hy]; [now left | right; now apply (IH n)].
Qed.

Lemma removeAt_NoDup (f : A -> nat) (l : list A) n :
  NoDup (map f l) -> NoDup (map f (removeAt l n)).
Proof.
  revert n; induction l as [|x l IH]; intros [|n] Hnd.
  - exact Hnd.
  - exact Hnd.
  - rewrite removeAt_cons_0. now inversion Hnd.
  - rewrite removeAt_cons_S; simpl in *. inversion Hnd; subst. constructor; auto.
    intros Hin; apply in_map_iff in Hin as (y & Hy & Hin).
    apply removeAt_incl in Hin. apply H1. rewrite <- Hy. now apply in_map.
Qed.

Lemma removeAt_nth_unique (f : A -> nat) (l : list A) n x y :
  NoDup (map f l) -> nth_error l n = Some x -> In y (removeAt l n) -> f y <> f x.
Proof.
  revert n; induction l as [|z l IH]; intros [|n] Hnd Hnth Hin.
  - discriminate.
  - discriminate.
  - rewrite removeAt_cons_0 in Hin. simpl in *.
    injection Hnth as <-. inversion Hnd; subst. intros E.
    apply H1. rewrite <- E. now apply in_map.
  - rewrite removeAt_cons_S in Hin. simpl in *. inversion Hnd; subst.
    destruct Hin as [<-|Hin].
    + intros E. apply H1. apply nth_error_In in Hnth. rewrite E. now apply in_map.
    + eapply IH; eauto.
Qed.

Lemma findIndexFrom_spec (p : A -> bool) (l : list A) (i : Z) :
  (0 <= i)%Z ->
  (findIndexFrom p l i = (-1)%Z /\ forall x, In x l -> p x = false) \/
  (exists x, (i <= findIndexFrom p l i)%Z /\
     nth_error l (Z.to_nat (findIndexFrom p l i - i)) = Some x /\ p x = true).
Proof.
  revert i; induction l as [|x l IH]; intros i Hi; simpl.
  - left; split; [reflexivity | intros _ []].
  - destruct (p x) eqn:Px.
    + right. exists x. rewrite Z.sub_diag. simpl. split; [lia | auto].
    + destruct (IH (i + 1)%Z ltac:(lia)) as [[E Hall]|(y & Hle & Hn & Py)].
      * left. split; [exact E|]. intros z [<-|Hz]; auto.
      * right. exists y. split; [lia|].
        replace (Z.to_nat (findIndexFrom p l (i + 1) - i))
          with (S (Z.to_nat (findIndexFrom p l (i + 1) - (i + 1)))) by lia.
        simpl. auto.
Qed.

Lemma nth_error_lt_length (l : list A) n x : nth_error l n = Some x -> n < List.length l.
Proof. intros E. apply nth_error_Some. congruence. Qed.

End ListFacts.

Section StackFacts.

Context `{H : Host}.

Lemma addBatch_wf doc c b : stackWellFormed c -> stackWellFormed (addBatch doc c b).
Proof.
  unfold addBatch, stackWellFormed, itemIds, registryHas.
  destruct (existsb (Nat.eqb (bid b)) (batchRegistry c)) eqn:E; auto.
  simpl. intros [Hnd Hinc]. rewrite map_app. simpl. split.
  - apply NoDup_app; auto using NoDup_cons, NoDup_nil.
    intros x Hx [<-|[]]. apply Hinc in Hx.
    assert (existsb (Nat.eqb (bid b)) (batchRegistry c) = true) as T
      by (apply existsb_exists; exists (bid b); split; [exact Hx | apply Nat.eqb_refl]).
    congruence.
  - intros x Hx. apply in_app_or in Hx as [Hx|[<-|[]]]; [right; auto | now left].
Qed.

Lemma clearStack_wf c : stackWellFormed c -> stackWellFormed (clearStack c).
Proof. intros _. split; [constructor | intros x []]. Qed.

Lemma takeItem_wf c batch :
  stackWellFormed c -> stackWellFormed (snd (takeItem c batch)).
Proof.
  unfold takeItem, splice1, stackWellFormed, itemIds. intros [Hnd Hinc].
  destruct batch as [b|]; simpl.
  - set (p := fun a : Item => bid (ibatch a) =? bid b).
    split.
    + now apply removeAt_NoDup.
    + intros k Hk. apply in_map_iff in Hk as (y & <- & Hy).
      apply filter_In. split.
      * apply Hinc, (in_map (fun i => bid (ibatch i))), (removeAt_incl _ _ _ Hy).
      * apply negb_true_iff, Nat.eqb_neq.
        destruct (findIndexFrom_spec p (items c) 0 ltac:(lia))
          as [[E Hall]|(x & Hle & Hn & Px)].
        -- intros Eq. assert (p y = true) as Py
             by (unfold p; now apply Nat.eqb_eq).
           rewrite (Hall y) in Py; [discriminate|].
           apply (removeAt_incl _ _ _ Hy).
        -- rewrite Z.sub_0_r in Hn.
           pose proof (nth_error_lt_length _ _ _ Hn) as Hlt.
           destruct (findIndexFrom p (items c) 0 <? 0)%Z eqn:Neg; [lia|].
           rewrite Z.min_l in Hy by lia.
           pose proof (removeAt_nth_unique (fun i => bid (ibatch i)) _ _ _ _ Hnd Hn Hy).
           unfold p in Px. apply Nat.eqb_eq in Px. congruence.
  - split.
    + now apply removeAt_NoDup.
    + intros k Hk. apply in_map_iff in Hk as (y & <- & Hy).
      apply Hinc, (in_map (fun i => bid (ibatch i))), (removeAt_incl _ _ _ Hy).
Qed.

(** [_doExecute] leaves [_items] and [_batchRegistry] as [takeItem] made them. *)
Lemma doExecute_stack doc c batch :
  items (snd (fst (_doExecute doc c batch))) = items (snd (takeItem c batch)) /\
  batchRegistry (snd (fst (_doExecute doc c batch))) =
    batchRegistry (snd (takeItem c batch)).
Proof.
  unfold _doExecute. destruct (takeItem c batch) as [[item|] c1]; simpl; auto.
  destruct (revertLoop _ _ _) as [s [|]]; simpl; auto.
  destruct (deltas (ibatch item)); simpl; auto.
Qed.

Lemma doExecute_wf doc c batch :
  stackWellFormed c -> stackWellFormed (snd (fst (_doExecute doc c batch))).
Proof.
  intros Hwf. pose proof (takeItem_wf c batch Hwf) as [Hnd Hinc].
  destruct (doExecute_stack doc c batch) as [Ei Er].
  unfold stackWellFormed, itemIds in *. rewrite Ei, Er. auto.
Qed.

Lemma reachable_wf c : reachable c -> stackWellFormed c.
Proof.
  induction 1.
  - split; [constructor | intros x []].
  - now apply addBatch_wf.
  - now apply clearStack_wf.
  - now apply doExecute_wf.
Qed.

Lemma addBatches_ids c calls :
  stackWellFormed c ->
  stackWellFormed (addBatches c calls) /\
  incl (itemIds (addBatches c calls)) (itemIds c ++ map (fun call => bid (snd call)) calls).
Proof.
  revert c; induction calls as [|[d b] calls IH]; intros c Hwf; simpl.
  - rewrite app_nil_r. split; [exact Hwf | intros x Hx; exact Hx].
  - destruct (IH (addBatch d c b) (addBatch_wf d c b Hwf)) as [Hwf' Hinc].
    split; [exact Hwf'|].
    intros x Hx. apply Hinc in Hx. apply in_app_or in Hx as [Hx|Hx].
    + unfold addBatch in Hx. destruct (registryHas c b).
      * apply in_or_app; now left.
      * unfold itemIds in Hx; simpl in Hx. rewrite map_app in Hx.
        apply in_app_or in Hx as [Hx|[<-|[]]].
        -- apply in_or_app; now left.
        -- apply in_or_app; right; now left.
    + apply in_or_app; right; now right.
Qed.

End StackFacts.

(** ** The reversion loop *)

Section LoopFacts.

Context `{H : Host}.

Lemma addAndApply_eq tag ds s :
  addAndApply tag ds s =
  {| ldoc := fold_left applyDelta ds (ldoc s); lorig := lorig s;
     lbatch := lbatch s ++ map (addDelta tag) ds |}.
Proof.
  revert s; induction ds as [|d ds IH]; intros s; simpl.
  - rewrite app_nil_r. destruct s; reflexivity.
  - rewrite IH. simpl. rewrite <- app_assoc. reflexivity.
Qed.

Lemma setOriginals_eq updated undoDelta m :
  setOriginals updated undoDelta m =
  rev (map (fun d => (did d, undoDelta)) updated) ++ m.
Proof.
  unfold setOriginals. revert m; induction updated as [|d ds IH]; intros m; simpl.
  - reflexivity.
  - rewrite IH. rewrite <- app_assoc. reflexivity.
Qed.

Lemma postFixStep_did orig u h u' : postFixStep orig u h = Some u' -> did u' = did u.
Proof.
  unfold postFixStep.
  destruct (negb (isMoveDelta h)); [congruence|].
  destruct (negb (fromUndoOrRedo (dbatch h))); [congruence|].
  destruct (operations u) as [|[] ?]; destruct (operations h) as [|[] ?];
    try discriminate; try congruence.
  destruct (isEqual _ _); [|congruence].
  destruct (lookupOriginal orig (did u)) as [ou|]; [|congruence].
  destruct (lookupOriginal orig (did h)) as [oh|]; [|congruence].
  destruct (operations ou) as [|o1 ?]; [discriminate|].
  destruct (operations oh) as [|o2 ?]; [discriminate|].
  destruct (sourceOrPosition o1); [|discriminate].
  destruct (sourceOrPosition o2); [|discriminate].
  destruct (isAfter _ _); intros E; injection E as <-; reflexivity.
Qed.

Lemma postFixHistory_did orig u hs u' :
  postFixHistory orig u hs = Some u' -> did u' = did u.
Proof.
  revert u; induction hs as [|h hs IH]; intros u; simpl.
  - congruence.
  - destruct (postFixStep orig u h) as [v|] eqn:E; [|discriminate].
    intros Hp. rewrite (IH v Hp). now apply (postFixStep_did orig u h).
Qed.

Lemma postFix_did orig ds hs ds' :
  postFix orig ds hs = Some ds' -> map did ds' = map did ds.
Proof.
  revert ds'; induction ds as [|u us IH]; intros ds'; simpl.
  - intros E; injection E as <-; reflexivity.
  - destruct (if isMoveDelta u then postFixHistory orig u hs else Some u) as [v|] eqn:Ev;
      [|discriminate].
    destruct (postFix orig us hs) as [vs|]; [|discriminate].
    intros E; injection E as <-. simpl. rewrite (IH vs eq_refl). f_equal.
    destruct (isMoveDelta u); [now apply (postFixHistory_did orig u hs) | congruence].
Qed.

(** The reversion loop, run to the end, reverts the deltas in the order given:
    the [i]-th group of added deltas is the post-fixed rebase of the [i]-th
    reversed delta against the document reached after the previous groups. *)
Lemma revertLoop_trace tag l s s' :
  revertLoop tag l s = (s', true) ->
  exists groups : list (list Delta),
    List.length groups = List.length l /\
    lbatch s' = lbatch s ++ map (addDelta tag) (List.concat groups) /\
    ldoc s' = fold_left applyDelta (List.concat groups) (ldoc s) /\
    forall i d g,
      nth_error l i = Some d -> nth_error groups i = Some g ->
      let doci := fold_left applyDelta (List.concat (firstn i groups)) (ldoc s) in
      exists m,
        postFix m (getTransformedDelta doci (getReversed d))
          (getDeltas doci (baseVersion d)) = Some g.
Proof.
  revert s; induction l as [|d rest IH]; intros s; simpl.
  - intros E; injection E as <-. exists []. simpl.
    rewrite app_nil_r. repeat split; auto.
    intros [|i] ? ? Hn; discriminate.
  - set (orig := setOriginals _ d (lorig s)).
    destruct (postFix orig _ _) as [fixed|] eqn:Hpf; [|discriminate].
    intros Hl. destruct (IH _ Hl) as (groups & Hlen & Hb & Hd & Hi).
    rewrite addAndApply_eq in Hb, Hd, Hi. simpl in Hb, Hd, Hi.
    exists (fixed :: groups). simpl. split; [lia|]. split.
    { rewrite Hb, map_app, app_assoc. reflexivity. }
    split.
    { rewrite Hd, fold_left_app. reflexivity. }
    intros [|i] d' g Hn Hg; simpl in Hn, Hg.
    + injection Hn as <-. injection Hg as <-. simpl. exists orig. exact Hpf.
    + specialize (Hi i d' g Hn Hg). cbv zeta in Hi |- *.
      cbn [firstn List.concat]. rewrite fold_left_app. exact Hi.
Qed.

(** Entries of the original-delta map are only ever added, each mapping a
    rebased delta to one of the deltas being reverted; every delta added to the
    reversion batch has an entry. *)
Lemma revertLoop_originals tag l s s' ok :
  revertLoop tag l s = (s', ok) ->
  exists added,
    lorig s' = added ++ lorig s /\
    (forall k v, In (k, v) added -> In v l) /\
    (forall d, In d (lbatch s') -> In d (lbatch s) \/ In (did d) (map fst added)).
Proof.
  revert s; induction l as [|d rest IH]; intros s; simpl.
  - intros E; injection E as <- <-. exists [].
    split; [reflexivity|]. split; [intros k v []|]. intros d Hd; now left.
  - rewrite setOriginals_eq.
    set (new := rev (map (fun d0 => (did d0, d)) (getTransformedDelta (ldoc s) (getReversed d)))).
    destruct (postFix (new ++ lorig s) _ _) as [fixed|] eqn:Hpf.
    + intros Hl. destruct (IH _ Hl) as (added & Ho & Hv & Hb).
      rewrite addAndApply_eq in Ho, Hb. simpl in Ho, Hb.
      exists (added ++ new). split; [rewrite Ho, app_assoc; reflexivity|]. split.
      * intros k v Hin. apply in_app_or in Hin as [Hin|Hin].
        -- right. eapply Hv; eauto.
        -- left. unfold new in Hin. apply in_rev, in_map_iff in Hin as (x & E & _).
           now injection E.
      * intros d0 Hd0. destruct (Hb d0 Hd0) as [Hin|Hin].
        -- apply in_app_or in Hin as [Hin|Hin]; [now left|].
           right. rewrite map_app. apply in_or_app. right.
           apply in_map_iff in Hin as (x & <- & Hx).
           pose proof (postFix_did _ _ _ _ Hpf) as Hdid.
           assert (In (did x) (map did fixed)) as Hx' by (now apply in_map).
           rewrite Hdid in Hx'. unfold new. rewrite map_rev, map_map. cbn.
           rewrite <- in_rev. exact Hx'.
        -- right. rewrite map_app. apply in_or_app. now left.
    + intros E; injection E as <- <-. simpl. exists new.
      split; [reflexivity|]. split.
      * intros k v Hin. left. unfold new in Hin.
        apply in_rev, in_map_iff in Hin as (x & E & _). now injection E.
      * intros d0 Hd0. now left.
Qed.

Lemma lookupOriginal_app added m k :
  In k (map fst added) ->
  exists v, lookupOriginal (added ++ m) k = Some v /\ In (k, v) added.
Proof.
  induction added as [|[k' v'] added IH]; simpl; [intros []|].
  intros Hk. unfold lookupOriginal. simpl.
  destruct (k' =? k) eqn:E.
  - apply Nat.eqb_eq in E; subst. exists v'. split; [reflexivity | now left].
  - destruct Hk as [Hk|Hk]; [subst; rewrite Nat.eqb_refl in E; discriminate|].
    destruct (IH Hk) as (v & Hl & Hin). exists v. split; [exact Hl | now right].
Qed.

Lemma postFixStep_skip orig u h : reversionMove h = false -> postFixStep orig u h = Some u.
Proof.
  unfold reversionMove, postFixStep. intros E.
  destruct (isMoveDelta h); simpl in *; [|reflexivity].
  rewrite E. reflexivity.
Qed.

Lemma postFixHistory_filter orig u hs :
  postFixHistory orig u hs = postFixHistory orig u (filter reversionMove hs).
Proof.
  revert u; induction hs as [|h hs IH]; intros u; simpl; [reflexivity|].
  destruct (reversionMove h) eqn:E; simpl.
  - destruct (postFixStep orig u h); [apply IH | reflexivity].
  - rewrite postFixStep_skip by exact E. apply IH.
Qed.

Lemma takeItem_fields c batch :
  originalDeltas (snd (takeItem c batch)) = originalDeltas c /\
  ctype (snd (takeItem c batch)) = ctype c.
Proof. unfold takeItem. destruct (splice1 _ _). split; reflexivity. Qed.

(** Shape of a normal return of [_doExecute]. *)
Lemma doExecute_returned doc c batch doc' c' ub rb :
  _doExecute doc c batch = (doc', c', Returned (ub, rb)) ->
  let tag := {| tagId := freshBatchId doc; tagType := Some (ctype c) |} in
  exists item d0 rest s,
    fst (takeItem c batch) = Some item /\ ub = ibatch item /\
    deltas ub = d0 :: rest /\
    revertLoop tag (rev (deltas ub))
      {| ldoc := doc; lorig := originalDeltas c; lbatch := [] |} = (s, true) /\
    doc' = restoreSelection (ldoc s) (iselection item)
             (getDeltas (ldoc s) (baseVersion d0)) /\
    rb = {| bid := freshBatchId doc; btype := Some (ctype c); deltas := lbatch s |} /\
    originalDeltas c' = lorig s.
Proof.
  intros E tag. destruct (takeItem_fields c batch) as [Eo Ec].
  unfold _doExecute in E.
  destruct (takeItem c batch) as [[item|] c1] eqn:Et; [|discriminate].
  simpl in Eo, Ec. rewrite Eo in E.
  destruct (revertLoop _ _ _) as [s [|]] eqn:El; [|discriminate].
  destruct (deltas (ibatch item)) as [|d0 rest] eqn:Ed; [discriminate|].
  injection E as <- <- <- <-.
  exists item, d0, rest, s. rewrite Ed. repeat split; auto.
Qed.

(** Whatever the outcome, [_doExecute] only adds entries to [_originalDeltas]. *)
Lemma doExecute_originals doc c batch :
  exists added,
    originalDeltas (snd (fst (_doExecute doc c batch))) = added ++ originalDeltas c.
Proof.
  destruct (takeItem_fields c batch) as [Eo _].
  unfold _doExecute. destruct (takeItem c batch) as [[item|] c1] eqn:Et; simpl in Eo.
  - destruct (revertLoop _ _ _) as [s ok] eqn:El.
    destruct (revertLoop_originals _ _ _ _ _ El) as (added & Ho & _ & _).
    simpl in Ho. rewrite Eo in Ho. exists added.
    destruct ok; [destruct (deltas (ibatch item))|]; exact Ho.
  - exists []. exact Eo.
Qed.

End LoopFacts.

(** ** Selection transformation *)

Section SelectionFacts.

Context `{H : Host}.

(** [b] does not start before [a]: the order [Array#sort] is asked for. *)

Lemma insertSorted_perm el l : Permutation (insertSorted el l) (el :: l).
Proof.
  induction l as [|tmp rest IH]; simpl; [reflexivity|].
  destruct (0 <? compareStarts tmp el)%Z; [|reflexivity].
  rewrite IH. apply perm_swap.
Qed.

Lemma sortRanges_perm l : Permutation (sortRanges l) l.
Proof.
  unfold sortRanges. rewrite <- Permutation_rev.
  assert (forall acc, Permutation (fold_left (fun acc x => insertSorted x acc) l acc)
                        (l ++ acc)) as G.
  { induction l as [|x l IH]; intros acc; simpl; [reflexivity|].
    rewrite IH, insertSorted_perm. symmetry. apply Permutation_middle. }
  rewrite G, app_nil_r. reflexivity.
Qed.

Section Asymmetric.

Hypothesis isBefore_asym : forall p q, isBefore p q = true -> isBefore q p = false.


Lemma insertSorted_hd tmp el rest :
  HdRel revOrder tmp rest -> revOrder tmp el -> HdRel revOrder tmp (insertSorted el rest).
Proof.
  intros Hh Hte. destruct rest as [|r rest]; simpl.
  - constructor; exact Hte.
  - destruct (0 <? compareStarts r el)%Z; constructor; [inversion Hh; auto | exact Hte].
Qed.

Lemma insertSorted_sorted el l : Sorted revOrder l -> Sorted revOrder (insertSorted el l).
Proof.
  induction l as [|tmp rest IH]; intros Hs; simpl.
  - repeat constructor.
  - inversion Hs as [|? ? Hs' Hh]; subst.
    unfold compareStarts. destruct (isBefore (start tmp) (start el)) eqn:E; simpl.
    + constructor; [exact Hs|]. constructor. unfold revOrder, startNotBefore.
      now apply isBefore_asym.
    + constructor; [now apply IH|]. apply insertSorted_hd; [exact Hh|exact E].
Qed.

Lemma Sorted_pairs {A} (P : A -> A -> Prop) l :
  Sorted P l -> forall l1 a b l2, l = l1 ++ a :: b :: l2 -> P a b.
Proof.
  intros Hs l1; revert l Hs; induction l1 as [|x l1 IH]; intros l Hs a b l2 E; subst l.
  - inversion Hs as [|? ? _ Hh]; subst. now inversion Hh.
  - inversion Hs; subst. eapply IH; eauto.
Qed.

Lemma insertAll_sorted l acc :
  Sorted revOrder acc ->
  Sorted revOrder (fold_left (fun acc x => insertSorted x acc) l acc).
Proof.
  revert acc; induction l as [|x l IH]; intros acc Hacc; simpl; auto.
  apply IH, insertSorted_sorted, Hacc.
Qed.

Lemma sortRanges_sorted l :
  forall l1 a b l2, sortRanges l = l1 ++ a :: b :: l2 -> startNotBefore a b.
Proof.
  intros l1 a b l2 E.
  pose proof (insertAll_sorted l [] (Sorted_nil _)) as Hs.
  unfold sortRanges in E.
  apply (f_equal (@rev Range)) in E. rewrite rev_involutive in E.
  rewrite rev_app_distr in E. simpl in E. rewrite <- !app_assoc in E. simpl in E.
  exact (Sorted_pairs _ _ Hs _ b a _ E).
Qed.

End Asymmetric.

Lemma coalesce_hd a rest :
  exists e tl, coalesce a rest = {| start := start a; end_ := e |} :: tl.
Proof.
  revert a; induction rest as [|b rest IH]; intros a; simpl.
  - exists (end_ a), []. destruct a; reflexivity.
  - destruct (isTouching (end_ a) (start b)).
    + destruct (IH {| start := start a; end_ := end_ b |}) as (e & tl & E).
      exists e, tl. exact E.
    + exists (end_ a), (coalesce b rest). destruct a; reflexivity.
Qed.

Lemma coalesce_not_touching a rest :
  forall l1 x y l2, coalesce a rest = l1 ++ x :: y :: l2 ->
  isTouching (end_ x) (start y) = false.
Proof.
  revert a; induction rest as [|b rest IH]; intros a l1 x y l2; simpl.
  - destruct l1 as [|? [|]]; simpl; discriminate.
  - destruct (isTouching (end_ a) (start b)) eqn:T; [apply IH|].
    destruct l1 as [|z l1]; simpl.
    + intros E. injection E as <- Ey.
      destruct (coalesce_hd b rest) as (e & tl & Ec). rewrite Ec in Ey.
      injection Ey as <- _. exact T.
    + intros E. injection E as _ E. eapply IH; eauto.
Qed.

Lemma coalesceAll_not_touching l :
  forall l1 x y l2, coalesceAll l = l1 ++ x :: y :: l2 ->
  isTouching (end_ x) (start y) = false.
Proof.
  destruct l as [|a rest]; simpl.
  - intros [|? ?] ? ? ? E; discriminate.
  - apply coalesce_not_touching.
Qed.

Lemma find_first {A} (f : A -> bool) l r :
  find f l = Some r ->
  exists l1 l2, l = l1 ++ r :: l2 /\ f r = true /\ forall x, In x l1 -> f x = false.
Proof.
  induction l as [|x l IH]; simpl; [discriminate|].
  destruct (f x) eqn:Fx.
  - intros E; injection E as <-. exists [], l. repeat split; auto. intros ? [].
  - intros E. destruct (IH E) as (l1 & l2 & -> & Fr & Hl1).
    exists (x :: l1), l2. repeat split; auto.
    intros y [<-|Hy]; auto.
Qed.

Lemma find_none_iff {A} (f : A -> bool) l :
  find f l = None <-> forall x, In x l -> f x = false.
Proof.
  split; [apply find_none|].
  induction l as [|x l IH]; simpl; intros Hall; [reflexivity|].
  rewrite (Hall x (or_introl eq_refl)). apply IH. intros y Hy; auto.
Qed.

Lemma transformRangesAcc_eq rs ds acc :
  transformRangesAcc rs ds acc =
  acc ++ flat_map (fun r => match transformRange r ds with
                            | Some t => [t] | None => [] end) rs.
Proof.
  revert acc; induction rs as [|r rs IH]; intros acc; simpl.
  - now rewrite app_nil_r.
  - destruct (transformRange r ds); rewrite IH; [now rewrite <- app_assoc | reflexivity].
Qed.

End SelectionFacts.

(** ** Claims *)

Section Claims.

Context `{H : Host}.

(** C2: the change listener routes a batch by its [type]: [undefined] goes to
    the undo command's [addBatch] and clears the redo stack (leaving it empty),
    ['undo'] goes to the redo command only and ['redo'] to the undo command
    only. *)
Theorem changeListener_routes_by_kind doc u r b :
  (btype b = None ->
     changeListener doc u r b = (addBatch doc u b, clearStack r) /\
     items (snd (changeListener doc u r b)) = []) /\
  (btype b = Some "undo"%string -> changeListener doc u r b = (u, addBatch doc r b)) /\
  (btype b = Some "redo"%string -> changeListener doc u r b = (addBatch doc u b, r)).
Proof.
  unfold changeListener. split; [|split]; intros E; rewrite E; auto.
Qed.

(** C7: [addBatch] of a batch already on the stack of a reachable command
    changes nothing (no push, no new selection), and recording any sequence of
    batches on a new command leaves at most as many items as distinct batch
    identities. *)
Theorem addBatch_idempotent_dedup :
  (forall c doc b, reachable c -> In (bid b) (itemIds c) -> addBatch doc c b = c) /\
  (forall t (calls : list (Doc * Batch)),
     List.length (items (addBatches (newUndoCommand t) calls)) <=
     List.length (nodup Nat.eq_dec (map (fun call => bid (snd call)) calls))).
Proof.
  split.
  - intros c doc b Hr Hin. destruct (reachable_wf c Hr) as [_ Hinc].
    unfold addBatch, registryHas.
    replace (existsb (Nat.eqb (bid b)) (batchRegistry c)) with true; [reflexivity|].
    symmetry. apply existsb_exists. exists (bid b).
    split; [now apply Hinc | apply Nat.eqb_refl].
  - intros t calls.
    assert (stackWellFormed (newUndoCommand t)) as W0
      by (split; [constructor | intros x []]).
    destruct (addBatches_ids _ calls W0) as [[Hnd _] Hinc].
    replace (List.length (items (addBatches (newUndoCommand t) calls)))
      with (List.length (itemIds (addBatches (newUndoCommand t) calls)))
      by (unfold itemIds; apply length_map).
    apply NoDup_incl_length; [exact Hnd|].
    intros x Hx. apply nodup_In. apply Hinc in Hx. exact Hx.
Qed.

(** C1: a normal return of [_doExecute] reverts the item's batch deltas in
    reverse order: the [i]-th group of deltas added to the reversion batch is
    the post-fixed result of [getTransformedDelta] on the reversed [i]-th delta
    of [rev batch.deltas], every added delta carries the fresh reversion batch
    whose [type] is the command's type, and the document reached is the one
    obtained by applying the operations of all these deltas in order (the
    selection restored on top of it). *)
Theorem doExecute_reverts_in_reverse_order doc c batch doc' c' ub rb :
  _doExecute doc c batch = (doc', c', Returned (ub, rb)) ->
  let tag := {| tagId := freshBatchId doc; tagType := Some (ctype c) |} in
  btype rb = Some (ctype c) /\ bid rb = freshBatchId doc /\
  exists item d0 groups,
    fst (takeItem c batch) = Some item /\ ibatch item = ub /\
    hd_error (deltas ub) = Some d0 /\
    List.length groups = List.length (deltas ub) /\
    deltas rb = map (addDelta tag) (List.concat groups) /\
    Forall (fun d => dbatch d = Some tag) (deltas rb) /\
    (forall i d g,
       nth_error (rev (deltas ub)) i = Some d -> nth_error groups i = Some g ->
       let doci := fold_left applyDelta (List.concat (firstn i groups)) doc in
       exists m,
         postFix m (getTransformedDelta doci (getReversed d))
           (getDeltas doci (baseVersion d)) = Some g) /\
    let docR := fold_left applyDelta (List.concat groups) doc in
    doc' = restoreSelection docR (iselection item) (getDeltas docR (baseVersion d0)).
Proof.
  intros E tag.
  destruct (doExecute_returned _ _ _ _ _ _ _ E)
    as (item & d0 & rest & s & Ht & Hub & Hd & Hl & Hdoc & Hrb & _).
  destruct (revertLoop_trace _ _ _ _ Hl) as (groups & Hlen & Hb & Hld & Hi).
  simpl in Hb, Hld.
  subst rb. split; [reflexivity|]. split; [reflexivity|].
  exists item, d0, groups. split; [exact Ht|]. split; [now subst|].
  split; [rewrite Hd; reflexivity|].
  split; [rewrite Hlen, length_rev; reflexivity|].
  split; [exact Hb|]. split.
  { simpl. rewrite Hb. apply Forall_forall. intros x Hx.
    apply in_map_iff in Hx as (y & <- & _). reflexivity. }
  split; [exact Hi|].
  cbv zeta. rewrite <- Hld. exact Hdoc.
Qed.

(** C4: the selection state saved by [addBatch] holds the ranges and the
    [isBackward] flag of the selection at recording time; a normal return of
    [_doExecute] leaves the document reached by the reversion as it is when no
    transformed range survives, and otherwise sets the selection to exactly
    the surviving ranges with the saved [isBackward]. *)
Theorem doExecute_restores_selection :
  (forall doc c b, registryHas c b = false ->
     items (addBatch doc c b) =
     items c ++ [ {| ibatch := b;
                     iselection := {| ranges := selectionRanges doc;
                                      isBackward := selectionIsBackward doc |} |} ]) /\
  (forall doc c batch doc' c' ub rb,
     _doExecute doc c batch = (doc', c', Returned (ub, rb)) ->
     let tag := {| tagId := freshBatchId doc; tagType := Some (ctype c) |} in
     exists item d0,
       fst (takeItem c batch) = Some item /\ ub = ibatch item /\
       hd_error (deltas ub) = Some d0 /\
       let docR := ldoc (fst (revertLoop tag (rev (deltas ub))
                              {| ldoc := doc; lorig := originalDeltas c; lbatch := [] |})) in
       let tr := transformRanges (ranges (iselection item))
                   (getDeltas docR (baseVersion d0)) in
       (tr = [] -> doc' = docR) /\
       (tr <> [] -> doc' = setRanges docR tr (isBackward (iselection item)))).
Proof.
  split.
  - intros doc c b E. unfold addBatch. rewrite E. reflexivity.
  - intros doc c batch doc' c' ub rb E tag.
    destruct (doExecute_returned _ _ _ _ _ _ _ E)
      as (item & d0 & rest & s & Ht & Hub & Hd & Hl & Hdoc & _ & _).
    exists item, d0. split; [exact Ht|]. split; [exact Hub|].
    split; [rewrite Hd; reflexivity|].
    subst tag. cbv zeta. rewrite Hl. simpl. unfold restoreSelection in Hdoc.
    split.
    + intros Htr. rewrite Htr in Hdoc. exact Hdoc.
    + intros Htr. destruct (transformRanges _ _) eqn:Etr; [congruence|].
      exact Hdoc.
Qed.

(** C10 (as the code does it): [_originalDeltas] belongs to the command and
    outlives each invocation: [_doExecute] only adds entries in front of the
    existing ones, and after a normal return every delta of the reversion
    batch has an entry mapping it to a delta of the reverted batch. *)
Theorem originalDeltas_outlive_invocation doc c batch :
  (exists added,
     originalDeltas (snd (fst (_doExecute doc c batch))) = added ++ originalDeltas c) /\
  (forall ub rb, snd (_doExecute doc c batch) = Returned (ub, rb) ->
     forall d, In d (deltas rb) ->
       exists d0, lookupOriginal (originalDeltas (snd (fst (_doExecute doc c batch)))) (did d)
                    = Some d0 /\ In d0 (deltas ub)).
Proof.
  split; [apply doExecute_originals|].
  intros ub rb Hout d Hd.
  destruct (_doExecute doc c batch) as [[doc' c'] out] eqn:E. simpl in Hout |- *.
  subst out.
  destruct (doExecute_returned _ _ _ _ _ _ _ E)
    as (item & d0 & rest & s & Ht & Hub & Hdl & Hl & _ & Hrb & Ho).
  destruct (revertLoop_originals _ _ _ _ _ Hl) as (added & Hadd & Hv & Hb).
  simpl in Hadd, Hb. subst rb. simpl in Hd.
  destruct (Hb d Hd) as [[]|Hk].
  destruct (lookupOriginal_app added (originalDeltas c) (did d) Hk) as (v & Hlk & Hin).
  exists v. rewrite Ho, Hadd. split; [exact Hlk|].
  apply in_rev. eapply Hv; eauto.
Qed.

(** C3: for each saved range, the ranges obtained by transforming it by every
    operation of every history delta are sorted by start (a permutation in
    which no range starts before its predecessor, for an asymmetric
    [isBefore]), then touching neighbours are merged (no two consecutive ranges
    of the result touch), and only then the first range whose start root is not
    the graveyard is taken; when there is none the saved range contributes
    nothing to [transformedRanges]. *)
Theorem transformRange_sort_merge_pick originalRange ds :
  let transformed := transformByDeltas originalRange ds in
  let sorted := sortRanges transformed in
  let merged := coalesceAll sorted in
  transformRange originalRange ds = find notInGraveyard merged /\
  Permutation sorted transformed /\
  ((forall p q, isBefore p q = true -> isBefore q p = false) ->
   forall l1 a b l2, sorted = l1 ++ a :: b :: l2 -> isBefore (start b) (start a) = false) /\
  (forall l1 a b l2, merged = l1 ++ a :: b :: l2 -> isTouching (end_ a) (start b) = false) /\
  (forall r, transformRange originalRange ds = Some r ->
     exists l1 l2, merged = l1 ++ r :: l2 /\ root (start r) <> graveyard /\
       forall x, In x l1 -> root (start x) = graveyard) /\
  (transformRange originalRange ds = None <->
     forall x, In x merged -> root (start x) = graveyard) /\
  (forall rs, transformRanges rs ds =
     flat_map (fun r => match transformRange r ds with
                        | Some t => [t] | None => [] end) rs).
Proof.
  intros transformed sorted merged.
  split; [reflexivity|]. split; [apply sortRanges_perm|]. split.
  { intros Hasym. apply sortRanges_sorted; exact Hasym. }
  split; [apply coalesceAll_not_touching|]. split.
  { intros r Hr. destruct (find_first _ _ _ Hr) as (l1 & l2 & E & Fr & Hl1).
    exists l1, l2. split; [exact E|]. split.
    - unfold notInGraveyard in Fr. apply negb_true_iff, Nat.eqb_neq in Fr. exact Fr.
    - intros x Hx. specialize (Hl1 x Hx). unfold notInGraveyard in Hl1.
      apply negb_false_iff, Nat.eqb_eq in Hl1. exact Hl1. }
  split.
  { unfold transformRange. fold transformed sorted merged.
    rewrite find_none_iff. split; intros Hall x Hx; specialize (Hall x Hx);
      unfold notInGraveyard in *.
    - apply negb_false_iff, Nat.eqb_eq in Hall. exact Hall.
    - rewrite Hall, Nat.eqb_refl. reflexivity. }
  intros rs. unfold transformRanges. rewrite transformRangesAcc_eq. reflexivity.
Qed.

(** C6 (as the code does it): with an empty stack [_doExecute] throws before
    touching the document or the stack; with a target batch that is not on
    the stack it does what it does without a target: it takes the top item
    and reverts it (same document, same stack, same outcome). *)
Theorem doExecute_empty_or_unknown_target :
  (forall doc c batch, items c = [] ->
     fst (fst (_doExecute doc c batch)) = doc /\
     items (snd (fst (_doExecute doc c batch))) = [] /\
     snd (_doExecute doc c batch) = Thrown) /\
  (forall doc c b, ~ In (bid b) (itemIds c) ->
     fst (fst (_doExecute doc c (Some b))) = fst (fst (_doExecute doc c None)) /\
     items (snd (fst (_doExecute doc c (Some b)))) =
       items (snd (fst (_doExecute doc c None))) /\
     snd (_doExecute doc c (Some b)) = snd (_doExecute doc c None)).
Proof.
  split.
  - intros doc c batch Hc. unfold _doExecute, takeItem, splice1. rewrite Hc.
    destruct (nth_error [] _) eqn:En; [destruct (Z.to_nat _); discriminate|].
    simpl. repeat split. unfold removeAt. destruct (Z.to_nat _); reflexivity.
  - intros doc c b Hnot.
    assert (takeItem_unknown :
              fst (takeItem c (Some b)) = fst (takeItem c None) /\
              items (snd (takeItem c (Some b))) = items (snd (takeItem c None))).
    { unfold takeItem.
      set (p := fun a : Item => bid (ibatch a) =? bid b).
      destruct (findIndexFrom_spec p (items c) 0 ltac:(lia)) as [[E _]|(x & _ & Hn & Px)].
      - rewrite E. unfold splice1.
        set (len := Z.of_nat (List.length (items c))).
        replace (Z.to_nat (if (-1 <? 0)%Z then Z.max (len + -1) 0 else Z.min (-1) len))
          with (Z.to_nat (if (len - 1 <? 0)%Z then Z.max (len + (len - 1)) 0
                          else Z.min (len - 1) len)).
        + split; reflexivity.
        + destruct (len - 1 <? 0)%Z eqn:L; simpl.
          * assert (len = 0)%Z by lia. subst len. rewrite H0. reflexivity.
          * rewrite Z.min_l by lia. f_equal. lia.
      - exfalso. apply Hnot. apply nth_error_In in Hn.
        unfold p in Px. apply Nat.eqb_eq in Px. rewrite <- Px.
        unfold itemIds. now apply (in_map (fun i => bid (ibatch i))). }
    destruct takeItem_unknown as [Eu Ei].
    destruct (takeItem_fields c (Some b)) as [Eo1 _].
    destruct (takeItem_fields c None) as [Eo2 _].
    unfold _doExecute.
    destruct (takeItem c (Some b)) as [u1 c1]; destruct (takeItem c None) as [u2 c2].
    simpl in Eu, Ei, Eo1, Eo2. subst u2. rewrite Eo1, Eo2.
    destruct u1 as [item|]; [|simpl; auto].
    destruct (revertLoop _ _ _) as [s [|]]; [|simpl; auto].
    destruct (deltas (ibatch item)); simpl; auto.
Qed.

(** C5 (as the code does it): the post-fix of a rebased delta [u] scans the
    history deltas in order and only MoveDeltas of an 'undo' or 'redo' batch
    count (the result is the same with all others removed; a non-move [u] is
    left as it is). For such an [h], [u] is left as it is when [h]'s target
    differs from [u]'s current target or when [u] or [h] has no entry in the
    command's original-delta map; otherwise both offsets of [u]'s move are
    increased by [h.howMany] exactly when the source/insert position of [u]'s
    original delta is after [h]'s. Shifts of successive [h] add up, each
    comparing with the target already shifted. *)
Theorem postFix_reversion_moves_only :
  (forall orig ds hs, postFix orig ds hs = postFix orig ds (filter reversionMove hs)) /\
  (forall orig u hs, isMoveDelta u = false -> postFix orig [u] hs = Some [u]) /\
  (forall orig u h hs, postFixHistory orig u (h :: hs) =
     match postFixStep orig u h with
     | Some u' => postFixHistory orig u' hs
     | None => None
     end) /\
  (forall orig u h mt src tgt hm mrs rest mt' src' htgt hHowMany mrs' hrest,
     reversionMove h = true ->
     operations u = MoveOperation mt src tgt hm mrs :: rest ->
     operations h = MoveOperation mt' src' htgt hHowMany mrs' :: hrest ->
     (isEqual tgt htgt = false \/ lookupOriginal orig (did u) = None \/
      lookupOriginal orig (did h) = None) ->
     postFixStep orig u h = Some u) /\
  (forall orig u h mt src tgt hm mrs rest mt' src' htgt hHowMany mrs' hrest
          ou oh ouOp ouRest ohOp ohRest upPos hPos,
     reversionMove h = true ->
     operations u = MoveOperation mt src tgt hm mrs :: rest ->
     operations h = MoveOperation mt' src' htgt hHowMany mrs' :: hrest ->
     isEqual tgt htgt = true ->
     lookupOriginal orig (did u) = Some ou -> lookupOriginal orig (did h) = Some oh ->
     operations ou = ouOp :: ouRest -> operations oh = ohOp :: ohRest ->
     sourceOrPosition ouOp = Some upPos -> sourceOrPosition ohOp = Some hPos ->
     postFixStep orig u h =
       Some (if isAfter upPos hPos
             then {| did := did u; dclass := dclass u;
                     operations := MoveOperation mt src (shiftOffset tgt hHowMany) hm
                                     (shiftOffset mrs hHowMany) :: rest;
                     baseVersion := baseVersion u; dbatch := dbatch u |}
             else u)).
Proof.
  split.
  { intros orig ds hs. induction ds as [|u us IH]; simpl; [reflexivity|].
    rewrite IH, <- postFixHistory_filter. reflexivity. }
  split.
  { intros orig u hs E. simpl. rewrite E. reflexivity. }
  split; [reflexivity|].
  split.
  - intros orig u h mt src tgt hm mrs rest mt' src' htgt hHowMany mrs' hrest
      Hr Hu Hh Hc.
    unfold reversionMove in Hr. apply andb_true_iff in Hr as [Hm Hf].
    unfold postFixStep. rewrite Hm, Hf, Hu, Hh. simpl.
    destruct Hc as [Hc|[Hc|Hc]].
    + rewrite Hc. reflexivity.
    + destruct (isEqual tgt htgt); [|reflexivity]. rewrite Hc. reflexivity.
    + destruct (isEqual tgt htgt); [|reflexivity]. rewrite Hc.
      destruct (lookupOriginal orig (did u)); reflexivity.
  - intros orig u h mt src tgt hm mrs rest mt' src' htgt hHowMany mrs' hrest
      ou oh ouOp ouRest ohOp ohRest upPos hPos Hr Hu Hh Heq Hou Hoh Hou1 Hoh1 Hup Hhp.
    unfold reversionMove in Hr. apply andb_true_iff in Hr as [Hm Hf].
    unfold postFixStep. rewrite Hm, Hf, Hu, Hh. simpl.
    rewrite Heq, Hou, Hoh, Hou1, Hoh1, Hup, Hhp. now destruct (isAfter upPos hPos).
Qed.

(** C9 (as the code does it): the change listener has no document-root check:
    a batch of the default type that is not registered yet is appended to the
    undo stack with the current selection, whatever roots its operations
    touch. *)
Theorem changeListener_records_without_root_check doc u r b :
  btype b = None -> registryHas u b = false ->
  items (fst (changeListener doc u r b)) =
  items u ++ [ {| ibatch := b;
                  iselection := {| ranges := selectionRanges doc;
                                   isBackward := selectionIsBackward doc |} |} ].
Proof.
  intros Ht Hr. unfold changeListener. rewrite Ht. simpl.
  unfold addBatch. rewrite Hr. reflexivity.
Qed.

End Claims.

(** C8: popping the top item ([_doExecute] without a batch) removes the item
    but deletes [null] from [_batchRegistry], so the popped batch stays
    registered and a later [addBatch] of it is refused; [clearStack] keeps the
    registry as it is. *)
Theorem popTop_keeps_registry_entry :
  let c1 := @addBatch Concrete.host Concrete.emptyDoc (newUndoCommand "undo") Concrete.userBatch in
  let c2 := snd (fst (@_doExecute Concrete.host Concrete.emptyDoc c1 None)) in
  items c2 = [] /\ In (bid Concrete.userBatch) (batchRegistry c2) /\
  @addBatch Concrete.host Concrete.emptyDoc c2 Concrete.userBatch = c2 /\
  batchRegistry (clearStack c1) = [bid Concrete.userBatch] /\
  (forall c, batchRegistry (snd (takeItem c None)) = batchRegistry c /\
             batchRegistry (clearStack c) = batchRegistry c).
Proof.
  split; [vm_compute; reflexivity|].
  split; [vm_compute; now left|].
  split; [vm_compute; reflexivity|].
  split; [vm_compute; reflexivity|].
  intros c. unfold takeItem. destruct (splice1 _ _). split; reflexivity.
Qed.

(** ** Further properties of the code *)

Section ExtraFacts.

Context {A : Type}.

Lemma filter_keep_all (p : A -> bool) (l : list A) :
  (forall y, In y l -> p y = true) -> filter p l = l.
Proof.
  induction l as [|y l IH]; intros Hall; simpl; [reflexivity|].
  rewrite (Hall y (or_introl eq_refl)). f_equal. apply IH. intros z Hz. apply Hall. now right.
Qed.

Lemma removeAt_filter (f : A -> nat) (l : list A) n x :
  NoDup (map f l) -> nth_error l n = Some x ->
  removeAt l n = filter (fun y => negb (f y =? f x)) l.
Proof.
  revert n; induction l as [|z l IH]; intros [|n] Hnd Hn; try discriminate;
    simpl in Hnd; inversion Hnd as [|? ? Hnotin Hnd']; subst.
  - simpl in Hn. injection Hn as <-. rewrite removeAt_cons_0. simpl.
    rewrite Nat.eqb_refl. simpl. symmetry. apply filter_keep_all.
    intros y Hy. apply negb_true_iff, Nat.eqb_neq. intros E. apply Hnotin.
    rewrite <- E. now apply in_map.
  - simpl in Hn. rewrite removeAt_cons_S. simpl.
    rewrite (IH n Hnd' Hn).
    assert ((f z =? f x) = false) as E.
    { apply Nat.eqb_neq. intros E. apply Hnotin. rewrite E.
      apply in_map. now apply nth_error_In with n. }
    rewrite E. reflexivity.
Qed.

Lemma splice1_in_range (l : list A) i :
  (0 <= i < Z.of_nat (List.length l))%Z ->
  splice1 l i = (nth_error l (Z.to_nat i), removeAt l (Z.to_nat i)).
Proof.
  intros Hi. unfold splice1.
  destruct (i <? 0)%Z eqn:E; [apply Z.ltb_lt in E; lia|].
  rewrite Z.min_l by lia. reflexivity.
Qed.

Lemma removeAt_last (xs : list A) x : removeAt (xs ++ [x]) (List.length xs) = xs.
Proof.
  induction xs as [|y xs IH]; [reflexivity|].
  simpl List.length. simpl app. rewrite removeAt_cons_S, IH. reflexivity.
Qed.

Lemma splice1_last (xs : list A) x :
  splice1 (xs ++ [x]) (Z.of_nat (List.length (xs ++ [x])) - 1) = (Some x, xs).
Proof.
  rewrite length_app. simpl List.length.
  rewrite splice1_in_range by (rewrite length_app; simpl; lia).
  replace (Z.to_nat (Z.of_nat (List.length xs + 1) - 1)) with (List.length xs) by lia.
  rewrite nth_error_app2, Nat.sub_diag by lia. simpl. rewrite removeAt_last. reflexivity.
Qed.

Lemma removeAt_nil n : removeAt (@nil A) n = [].
Proof. unfold removeAt. destruct n; reflexivity. Qed.

End ExtraFacts.

Section ExtraCommandFacts.

Context `{H : Host}.

Lemma takeItem_last c xs x :
  items c = xs ++ [x] ->
  takeItem c None =
    (Some x, {| items := xs; batchRegistry := batchRegistry c; ctype := ctype c;
                originalDeltas := originalDeltas c |}).
Proof. intros E. unfold takeItem. rewrite E, splice1_last. reflexivity. Qed.

Lemma registryDelete_has b reg :
  existsb (Nat.eqb (bid b)) (registryDelete (Some b) reg) = false.
Proof.
  simpl. induction reg as [|k reg IH]; simpl; [reflexivity|].
  destruct (k =? bid b) eqn:E; simpl; [exact IH|].
  rewrite Nat.eqb_sym, E. exact IH.
Qed.

Lemma takeItem_target c b :
  stackWellFormed c -> In (bid b) (itemIds c) ->
  exists x, bid (ibatch x) = bid b /\ fst (takeItem c (Some b)) = Some x /\
    items (snd (takeItem c (Some b))) =
      filter (fun i => negb (bid (ibatch i) =? bid b)) (items c) /\
    batchRegistry (snd (takeItem c (Some b))) = registryDelete (Some b) (batchRegistry c).
Proof.
  intros [Hnd _] Hin. unfold takeItem.
  set (p := fun a : Item => bid (ibatch a) =? bid b).
  destruct (findIndexFrom_spec p (items c) 0 ltac:(lia)) as [[_ Hall]|(x & Hle & Hn & Px)].
  - exfalso. unfold itemIds in Hin. apply in_map_iff in Hin as (y & Ey & Hy).
    specialize (Hall y Hy). unfold p in Hall. rewrite Ey, Nat.eqb_refl in Hall. discriminate.
  - rewrite Z.sub_0_r in Hn.
    set (fi := findIndexFrom p (items c) 0) in *.
    pose proof (nth_error_lt_length _ _ _ Hn) as Hlt.
    rewrite splice1_in_range by lia. simpl.
    unfold p in Px. apply Nat.eqb_eq in Px.
    exists x. split; [exact Px|]. split; [exact Hn|]. split; [|reflexivity].
    unfold itemIds in Hnd.
    rewrite (removeAt_filter (fun i => bid (ibatch i)) _ _ _ Hnd Hn). cbv beta.
    now rewrite Px.
Qed.

Lemma transformAll_other rs tr : transformAllByOperation (OtherOperation rs) tr = tr.
Proof. induction tr as [|r tr IH]; simpl; [reflexivity|]. now rewrite IH. Qed.

Lemma transformByDeltas_other_acc ds tr :
  (forall d o, In d ds -> In o (operations d) -> exists rs, o = OtherOperation rs) ->
  fold_left
    (fun tr delta => fold_left (fun tr o => transformAllByOperation o tr)
                       (operations delta) tr) ds tr = tr.
Proof.
  revert tr; induction ds as [|d ds IH]; intros tr Hall; simpl; [reflexivity|].
  rewrite IH by (intros d' o Hd Ho; apply (Hall d' o); [now right | exact Ho]).
  assert (forall ops tr, (forall o, In o ops -> exists rs, o = OtherOperation rs) ->
            fold_left (fun tr o => transformAllByOperation o tr) ops tr = tr) as G.
  { induction ops as [|o ops IHo]; intros tr' Ho; simpl; [reflexivity|].
    destruct (Ho o (or_introl eq_refl)) as [rs ->]. rewrite transformAll_other.
    apply IHo. intros o' Ho'. apply Ho. now right. }
  apply G. intros o Ho. apply (Hall d o); [now left | exact Ho].
Qed.

Lemma coalesce_bounds a rest x :
  In x (coalesce a rest) ->
  (start x = start a \/ In (start x) (map start rest)) /\
  (end_ x = end_ a \/ In (end_ x) (map end_ rest)).
Proof.
  revert a; induction rest as [|b rest IH]; intros a Hx; simpl in Hx |- *.
  - destruct Hx as [<-|[]]. split; left; reflexivity.
  - destruct (isTouching (end_ a) (start b)).
    + apply IH in Hx as [Hs He]. simpl in Hs, He. split.
      * destruct Hs as [Hs|Hs]; [left; exact Hs | right; right; exact Hs].
      * destruct He as [He|He]; right; [left; now symmetry | right; exact He].
    + destruct Hx as [<-|Hx]; [split; left; reflexivity|].
      apply IH in Hx as [Hs He]. split.
      * destruct Hs as [Hs|Hs]; right; [left; now symmetry | right; exact Hs].
      * destruct He as [He|He]; right; [left; now symmetry | right; exact He].
Qed.

Lemma shiftedBy_trans a b c : shiftedBy a b -> shiftedBy b c -> shiftedBy a c.
Proof.
  intros [->|(mt & src & tgt & hm & mrs & rest & n & Ea & ->)] Hbc; [exact Hbc|].
  destruct Hbc as [->|(mt' & src' & tgt' & hm' & mrs' & rest' & m & Eb & ->)].
  - right. exists mt, src, tgt, hm, mrs, rest, n. split; [exact Ea | reflexivity].
  - simpl in Eb |- *. injection Eb as <- <- <- <- <- <-.
    right. exists mt, src, tgt, hm, mrs, rest, (n + m). split; [exact Ea|].
    unfold shiftOffset. simpl. rewrite !Nat.add_assoc. reflexivity.
Qed.

Lemma postFixStep_shifted orig u h u' : postFixStep orig u h = Some u' -> shiftedBy u u'.
Proof.
  intros E. unfold postFixStep in E.
  destruct (negb (isMoveDelta h)); [injection E as <-; now left|].
  destruct (negb (fromUndoOrRedo (dbatch h))); [injection E as <-; now left|].
  destruct (operations u) as [|upOp upRest] eqn:Eu; [discriminate|].
  destruct (operations h) as [|hOp hRest]; [discriminate|].
  destruct upOp as [p k|mt src tgt hm mrs|rs]; try discriminate.
  destruct hOp as [p k|hmt hsrc htgt hHowMany hmrs|rs]; try discriminate.
  destruct (isEqual tgt htgt); [|injection E as <-; now left].
  destruct (lookupOriginal orig (did u)) as [ou|]; [|injection E as <-; now left].
  destruct (lookupOriginal orig (did h)) as [oh|]; [|injection E as <-; now left].
  destruct (operations ou) as [|ouOp ouRest]; [discriminate|].
  destruct (operations oh) as [|ohOp ohRest]; [discriminate|].
  destruct (sourceOrPosition ouOp); [|discriminate].
  destruct (sourceOrPosition ohOp); [|discriminate].
  destruct (isAfter _ _); injection E as <-; [|now left].
  right. exists mt, src, tgt, hm, mrs, upRest, hHowMany. split; [exact Eu | reflexivity].
Qed.

Lemma postFixHistory_shifted orig u hs u' :
  postFixHistory orig u hs = Some u' -> shiftedBy u u'.
Proof.
  revert u; induction hs as [|h hs IH]; intros u E; simpl in E.
  - injection E as <-. now left.
  - destruct (postFixStep orig u h) as [u1|] eqn:Es; [|discriminate].
    apply shiftedBy_trans with u1; [exact (postFixStep_shifted _ _ _ _ Es) | exact (IH _ E)].
Qed.

End ExtraCommandFacts.

Section OldFacts.

Context `{H : Host}.

Lemma old_selectionGet_cons k0 v m k :
  Old.selectionGet ((k0, v) :: m) k = if k0 =? k then Some v else Old.selectionGet m k.
Proof. unfold Old.selectionGet. simpl. destruct (k0 =? k); reflexivity. Qed.

Lemma old_doExecute_frame doc c bi :
  Old.batchSelection (snd (fst (Old._doExecute doc c bi))) = Old.batchSelection c /\
  exists n, Old.batchStack (snd (fst (Old._doExecute doc c bi))) = removeAt (Old.batchStack c) n.
Proof.
  unfold Old._doExecute, splice1.
  destruct (nth_error _ _) as [ub|]; [|split; [reflexivity | eexists; reflexivity]].
  destruct (deltas ub); [split; [reflexivity | eexists; reflexivity]|].
  destruct (Old.selectionGet _ _); split; try reflexivity; eexists; reflexivity.
Qed.

Lemma old_resolveIndex_range stack bi :
  stack <> [] -> (0 <= Old.resolveIndex stack bi < Z.of_nat (List.length stack))%Z.
Proof.
  intros Hne. assert (0 < List.length stack) by (destruct stack; [congruence | simpl; lia]).
  unfold Old.resolveIndex. destruct bi as [i|]; [|lia].
  destruct ((0 <=? i) && (i <? Z.of_nat (List.length stack)))%Z eqn:E; [|lia].
  apply andb_true_iff in E as [E1 E2]. apply Z.leb_le in E1. apply Z.ltb_lt in E2. lia.
Qed.

Lemma old_reachable_cover c : Old.reachable c -> Old.selectionsCover c.
Proof.
  induction 1 as [|c doc b _ IH|c _ _|c doc i _ IH]; unfold Old.selectionsCover.
  - intros b [].
  - intros b' Hb'. simpl. rewrite old_selectionGet_cons.
    destruct (bid b =? bid b') eqn:E; [discriminate|].
    apply in_app_or in Hb' as [Hb'|[<-|[]]].
    + exact (IH b' Hb').
    + rewrite Nat.eqb_refl in E. discriminate.
  - intros b [].
  - destruct (old_doExecute_frame doc c i) as [Es [n Eb]].
    intros b Hb. rewrite Es. rewrite Eb in Hb. apply IH. exact (removeAt_incl _ _ _ Hb).
Qed.

End OldFacts.

Section Extras.

Context `{H : Host}.

(** X1: [addBatch] of a batch not yet registered makes the command enabled;
    [clearStack] makes it disabled. *)
Theorem checkEnabled_after_add_and_clear doc c b :
  registryHas c b = false ->
  _checkEnabled (addBatch doc c b) = true /\ _checkEnabled (clearStack c) = false.
Proof.
  intros E. unfold addBatch. rewrite E. unfold _checkEnabled. simpl.
  rewrite length_app. simpl. split; [apply Nat.ltb_lt; lia | reflexivity].
Qed.

(** X2: in every command built by the constructor, [addBatch], [clearStack] and
    [_doExecute], each batch is on the stack at most once and every batch on the
    stack is in [_batchRegistry]. *)
Theorem reachable_stack_unique_registered c :
  reachable c -> NoDup (itemIds c) /\ incl (itemIds c) (batchRegistry c).
Proof. intros Hr. exact (reachable_wf c Hr). Qed.

(** X3: [_doExecute( batch )] with a batch on the stack removes exactly that
    batch's item (the others keep their order), reverts that batch when it
    returns, and unregisters the batch, so that [addBatch] pushes it again. *)
Theorem doExecute_target_removes_its_item doc c b :
  reachable c -> In (bid b) (itemIds c) ->
  let c' := snd (fst (_doExecute doc c (Some b))) in
  items c' = filter (fun i => negb (bid (ibatch i) =? bid b)) (items c) /\
  registryHas c' b = false /\
  (forall doc', items (addBatch doc' c' b) =
     items c' ++ [ {| ibatch := b;
                      iselection := {| ranges := selectionRanges doc';
                                       isBackward := selectionIsBackward doc' |} |} ]) /\
  (forall ub rb, snd (_doExecute doc c (Some b)) = Returned (ub, rb) -> bid ub = bid b).
Proof.
  intros Hr Hin c'.
  destruct (takeItem_target c b (reachable_wf c Hr) Hin) as (x & Ex & Et & Ei & Eg).
  destruct (doExecute_stack doc c (Some b)) as [Si Sr].
  assert (registryHas c' b = false) as Hreg.
  { unfold registryHas, c'. rewrite Sr, Eg. apply registryDelete_has. }
  split; [unfold c'; rewrite Si; exact Ei|].
  split; [exact Hreg|].
  split; [intros doc'; unfold addBatch; rewrite Hreg; reflexivity|].
  intros ub rb Eo.
  destruct (_doExecute doc c (Some b)) as [[d1 c1] o] eqn:E. simpl in Eo. subst o.
  destruct (doExecute_returned _ _ _ _ _ _ _ E) as (item & _ & _ & _ & Eit & -> & _).
  rewrite Et in Eit. injection Eit as <-. exact Ex.
Qed.

(** X4: [_doExecute()] without a batch removes the last item of the stack
    and, when it returns, reverts that item's batch. *)
Theorem doExecute_pops_last doc c xs x :
  items c = xs ++ [x] ->
  items (snd (fst (_doExecute doc c None))) = xs /\
  (forall ub rb, snd (_doExecute doc c None) = Returned (ub, rb) -> ub = ibatch x).
Proof.
  intros Ec. pose proof (takeItem_last c xs x Ec) as Et.
  destruct (doExecute_stack doc c None) as [Si _]. rewrite Et in Si.
  split; [exact Si|].
  intros ub rb Eo.
  destruct (_doExecute doc c None) as [[d1 c1] o] eqn:E. simpl in Eo. subst o.
  destruct (doExecute_returned _ _ _ _ _ _ _ E) as (item & _ & _ & _ & Eit & -> & _).
  rewrite Et in Eit. injection Eit as <-. reflexivity.
Qed.

(** X5: when the top item's batch has no deltas, [_doExecute()] throws
    ([deltas[ 0 ].baseVersion] of an empty batch) with the document unchanged,
    but the item has already been removed from the stack. *)
Theorem doExecute_empty_batch_throws doc c xs x :
  items c = xs ++ [x] -> deltas (ibatch x) = [] ->
  _doExecute doc c None =
    (doc, {| items := xs; batchRegistry := batchRegistry c; ctype := ctype c;
             originalDeltas := originalDeltas c |}, Thrown).
Proof.
  intros Ec Ed. unfold _doExecute. rewrite (takeItem_last c xs x Ec).
  cbv beta iota zeta. rewrite Ed. reflexivity.
Qed.

(** X6: the reversion batch of the 'undo' command goes, through the change
    listener, to the redo stack (and only there); the one of the 'redo'
    command goes to the undo stack. *)
Theorem reversion_batch_goes_to_other_stack doc c batch doc' c' ub rb d u r :
  _doExecute doc c batch = (doc', c', Returned (ub, rb)) ->
  (ctype c = "undo"%string -> changeListener d u r rb = (u, addBatch d r rb)) /\
  (ctype c = "redo"%string -> changeListener d u r rb = (addBatch d u rb, r)).
Proof.
  intros E.
  destruct (doExecute_returned _ _ _ _ _ _ _ E) as (item & d0 & rest & s & _ & _ & _ & _ & _ & Erb & _).
  rewrite Erb. unfold changeListener. simpl. split; intros Ec; rewrite Ec; reflexivity.
Qed.

(** X7: [postFix] keeps the number and the order of the deltas, and of each
    delta changes nothing but the target position and the moved-range start
    of its first (move) operation, both shifted by the same amount. *)
Theorem postFix_only_shifts_targets orig ds hs ds' :
  postFix orig ds hs = Some ds' -> Forall2 shiftedBy ds ds'.
Proof.
  revert ds'; induction ds as [|u us IH]; intros ds' E; simpl in E.
  - injection E as <-. constructor.
  - destruct (if isMoveDelta u then postFixHistory orig u hs else Some u) as [u'|] eqn:Eu;
      [|discriminate].
    destruct (postFix orig us hs) as [us'|]; [|discriminate].
    injection E as <-. constructor; [|now apply IH].
    destruct (isMoveDelta u).
    + exact (postFixHistory_shifted _ _ _ _ Eu).
    + injection Eu as <-. now left.
Qed.

(** X8: when the history deltas after the saved selection only hold operations
    other than insert, move, remove and reinsert, a saved range is restored
    as it was, unless it starts in the graveyard. *)
Theorem transformRange_other_operations r ds :
  (forall d o, In d ds -> In o (operations d) -> exists rs, o = OtherOperation rs) ->
  transformRange r ds = if notInGraveyard r then Some r else None.
Proof.
  intros Hall. unfold transformRange, transformByDeltas.
  rewrite (transformByDeltas_other_acc ds [r] Hall). reflexivity.
Qed.

(** X9: the range restored for a saved range starts at the start of one of
    the pieces the saved range was transformed into and ends at the end of one
    of them (merging creates no new boundary), and is not in the graveyard. *)
Theorem transformRange_bounds_from_pieces r ds t :
  transformRange r ds = Some t ->
  In (start t) (map start (transformByDeltas r ds)) /\
  In (end_ t) (map end_ (transformByDeltas r ds)) /\
  root (start t) <> graveyard.
Proof.
  intros E. unfold transformRange in E.
  pose proof (find_some _ _ E) as [Hin Hng].
  set (T := transformByDeltas r ds) in *.
  pose proof (sortRanges_perm T) as Hp.
  assert (forall f : Range -> Position, forall y, In y (map f (sortRanges T)) -> In y (map f T))
    as Hmap.
  { intros f y Hy. exact (Permutation_in _ (Permutation_map f Hp) Hy). }
  split; [|split].
  - apply Hmap. destruct (sortRanges T) as [|a rest]; [destruct Hin|].
    destruct (coalesce_bounds a rest t Hin) as [[Hs|Hs] _]; [rewrite Hs; now left | now right].
  - apply Hmap. destruct (sortRanges T) as [|a rest]; [destruct Hin|].
    destruct (coalesce_bounds a rest t Hin) as [_ [He|He]]; [rewrite He; now left | now right].
  - unfold notInGraveyard in Hng. apply negb_true_iff, Nat.eqb_neq in Hng. exact Hng.
Qed.

(** X10: the earlier [addBatch] always pushes, also a batch already on the
    stack; the saved ranges read back for that batch are the current
    selection ranges, those of other batches are unchanged, and the command is
    enabled. *)
Theorem old_addBatch_pushes doc c b :
  Old.batchStack (Old.addBatch doc c b) = Old.batchStack c ++ [b] /\
  Old.selectionGet (Old.batchSelection (Old.addBatch doc c b)) (bid b) =
    Some (selectionRanges doc) /\
  (forall k, k <> bid b ->
     Old.selectionGet (Old.batchSelection (Old.addBatch doc c b)) k =
     Old.selectionGet (Old.batchSelection c) k) /\
  Old._checkEnabled (Old.addBatch doc c b) = true.
Proof.
  split; [reflexivity|]. simpl. rewrite !old_selectionGet_cons, Nat.eqb_refl.
  split; [reflexivity|]. split.
  - intros k Hk. rewrite old_selectionGet_cons.
    destruct (bid b =? k) eqn:E; [apply Nat.eqb_eq in E; congruence|reflexivity].
  - unfold Old._checkEnabled. simpl. rewrite length_app. simpl. apply Nat.ltb_lt. lia.
Qed.

(** X11: the earlier [_doExecute( batchIndex )] removes the batch at a valid
    index and reverts it; with no index or an index outside the stack it
    removes and reverts the last batch; with an empty stack it throws with
    the document unchanged. *)
Theorem old_doExecute_index_or_last doc c bi :
  let r := Old._doExecute doc c bi in
  (forall i, bi = Some i -> (0 <= i < Z.of_nat (List.length (Old.batchStack c)))%Z ->
     Old.batchStack (snd (fst r)) = removeAt (Old.batchStack c) (Z.to_nat i) /\
     forall ub, snd r = Returned ub -> nth_error (Old.batchStack c) (Z.to_nat i) = Some ub) /\
  (forall xs x, Old.batchStack c = xs ++ [x] ->
     (forall i, bi = Some i -> ~ (0 <= i < Z.of_nat (List.length (Old.batchStack c)))%Z) ->
     Old.batchStack (snd (fst r)) = xs /\ forall ub, snd r = Returned ub -> ub = x) /\
  (Old.batchStack c = [] -> fst (fst r) = doc /\ Old.batchStack (snd (fst r)) = [] /\
     snd r = Thrown).
Proof.
  intros r.
  assert (forall k ub rest,
            splice1 (Old.batchStack c) (Old.resolveIndex (Old.batchStack c) bi) = (k, rest) ->
            Old.batchStack (snd (fst r)) = rest /\
            (snd r = Returned ub -> k = Some ub)) as Gen.
  { intros k ub rest Es. subst r. unfold Old._doExecute. rewrite Es.
    destruct k as [b0|]; [|split; [reflexivity | discriminate]].
    destruct (deltas b0); [split; [reflexivity | discriminate]|].
    destruct (Old.selectionGet _ _); [|split; [reflexivity | discriminate]].
    split; [reflexivity|]. intros Eo. injection Eo as <-. reflexivity. }
  split; [|split].
  - intros i Ei Hi.
    assert (Old.resolveIndex (Old.batchStack c) bi = i) as Er.
    { subst bi. unfold Old.resolveIndex.
      replace ((0 <=? i) && (i <? Z.of_nat (List.length (Old.batchStack c))))%Z with true;
        [reflexivity|].
      symmetry. apply andb_true_iff. split; [apply Z.leb_le | apply Z.ltb_lt]; lia. }
    rewrite Er, splice1_in_range in Gen by exact Hi.
    split; [exact (proj1 (Gen _ (mkBatch 0 None []) _ eq_refl))|].
    intros ub Eo. exact (proj2 (Gen _ ub _ eq_refl) Eo).
  - intros xs x Ec Hinv.
    assert (Old.resolveIndex (Old.batchStack c) bi =
            (Z.of_nat (List.length (Old.batchStack c)) - 1)%Z) as Er.
    { unfold Old.resolveIndex. destruct bi as [i|]; [|reflexivity].
      destruct ((0 <=? i) && (i <? Z.of_nat (List.length (Old.batchStack c))))%Z eqn:E;
        [|reflexivity].
      exfalso. apply (Hinv i eq_refl).
      apply andb_true_iff in E as [E1 E2]. apply Z.leb_le in E1. apply Z.ltb_lt in E2. lia. }
    rewrite Er, Ec, splice1_last in Gen.
    split; [exact (proj1 (Gen _ x _ eq_refl))|].
    intros ub Eo. pose proof (proj2 (Gen _ ub _ eq_refl) Eo) as Eu. congruence.
  - intros Ec. subst r. unfold Old._doExecute, splice1. rewrite Ec. simpl.
    rewrite removeAt_nil. destruct (Z.to_nat _); repeat split.
Qed.

(** X12: in every earlier-style command built by its methods (a [clearStack]
    throws after emptying the stack, and the command is used on), each batch on
    the stack has saved selection ranges; so [_doExecute] on a non-empty stack
    whose batches all have deltas never throws. *)
Theorem old_reachable_never_throws c doc bi :
  Old.reachable c ->
  Old.selectionsCover c /\
  (Old.batchStack c <> [] -> (forall b, In b (Old.batchStack c) -> deltas b <> []) ->
   exists doc' c' ub, Old._doExecute doc c bi = (doc', c', Returned ub)).
Proof.
  intros Hr. pose proof (old_reachable_cover c Hr) as Hc. split; [exact Hc|].
  intros Hne Hd.
  pose proof (old_resolveIndex_range _ bi Hne) as Hi.
  unfold Old._doExecute. rewrite splice1_in_range by exact Hi.
  destruct (nth_error (Old.batchStack c) _) as [ub|] eqn:En;
    [|apply nth_error_None in En; lia].
  pose proof (nth_error_In _ _ En) as Hin.
  destruct (deltas ub) as [|d0 ds] eqn:Ed; [exfalso; exact (Hd ub Hin Ed)|].
  destruct (Old.selectionGet (Old.batchSelection c) (bid ub)) as [rs|] eqn:Eg;
    [|exfalso; exact (Hc ub Hin Eg)].
  eexists _, _, ub. reflexivity.
Qed.

End Extras.

(** Witness for C2. *)
Lemma changeListener_routes_by_kind_witness :
  btype Concrete.userBatch = None /\
  @changeListener Concrete.host Concrete.emptyDoc (newUndoCommand "undo")
    (newUndoCommand "redo") Concrete.userBatch =
  (@addBatch Concrete.host Concrete.emptyDoc (newUndoCommand "undo") Concrete.userBatch,
   clearStack (newUndoCommand "redo")).
Proof.
  split; [reflexivity|].
  apply (proj1 (proj1 (@changeListener_routes_by_kind Concrete.host Concrete.emptyDoc
    (newUndoCommand "undo") (newUndoCommand "redo") Concrete.userBatch) eq_refl)).
Defined.

(** Witness for C7. *)
Lemma addBatch_idempotent_dedup_witness :
  let c1 := @addBatch Concrete.host Concrete.emptyDoc (newUndoCommand "undo") Concrete.userBatch in
  @reachable Concrete.host c1 /\ In (bid Concrete.userBatch) (itemIds c1) /\
  @addBatch Concrete.host Concrete.emptyDoc c1 Concrete.userBatch = c1.
Proof.
  assert (@reachable Concrete.host
            (@addBatch Concrete.host Concrete.emptyDoc (newUndoCommand "undo")
               Concrete.userBatch)) as R
    by (apply reachable_addBatch, reachable_new).
  split; [exact R|]. split; [vm_compute; now left|].
  apply (proj1 (@addBatch_idempotent_dedup Concrete.host)); [exact R|].
  vm_compute; now left.
Defined.

(** ** Counterexamples and witnesses on the concrete host *)

Module Runs.

Import Concrete.

Local Existing Instance host.

(** C1 witness: undoing the two-delta batch (deltas 1 then 4) gives a
    reversion batch whose deltas are the reversals of 4 then of 1. *)
Lemma doExecute_reverts_in_reverse_order_witness :
  exists doc' c' ub rb,
    @_doExecute host emptyDoc undoOfTwo None = (doc', c', Returned (ub, rb)) /\
    map did (deltas ub) = [1; 4] /\
    map did (deltas rb) = [1004; 1001].
Proof.
  destruct (@_doExecute host emptyDoc undoOfTwo None) as [[d c] o] eqn:E.
  pose proof E as E'. vm_compute in E'. injection E' as _ _ Eo. subst o.
  do 4 eexists. split; [reflexivity|]. split; [reflexivity|].
  destruct (doExecute_reverts_in_reverse_order _ _ _ _ _ _ _ E)
    as (_ & _ & item & d0 & groups & _ & _ & _ & Hlen & Hrb & _ & Hi & _).
  destruct groups as [|g0 [|g1 [|g2 groups]]]; simpl in Hlen; try discriminate.
  destruct (Hi 0 secondDelta g0 eq_refl eq_refl) as [m0 H0].
  destruct (Hi 1 userDelta g1 eq_refl eq_refl) as [m1 H1].
  cbn in H0, H1. injection H0 as <-. injection H1 as <-.
  rewrite Hrb. reflexivity.
Defined.

(** C3 witness: an insertion inside [wideRange] splits it; the two pieces
    come back from the sort in start order. *)
Lemma transformRange_sort_merge_pick_witness :
  sortRanges (transformByDeltas wideRange [insertInside]) =
    [ {| start := pos 1 1; end_ := pos 1 4 |}; {| start := pos 1 6; end_ := pos 1 8 |} ] /\
  isBefore (pos 1 6) (pos 1 1) = false.
Proof.
  split; [vm_compute; reflexivity|].
  apply (proj1 (proj2 (proj2 (@transformRange_sort_merge_pick host wideRange [insertInside])))
           posBefore_asym [] {| start := pos 1 1; end_ := pos 1 4 |}
           {| start := pos 1 6; end_ := pos 1 8 |} []).
  vm_compute. reflexivity.
Defined.

(** C4 witness: the selection restored by undoing the user batch. *)
Lemma doExecute_restores_selection_witness :
  exists doc' c' ub rb,
    @_doExecute host emptyDoc undoOfUser None = (doc', c', Returned (ub, rb)) /\
    ub = userBatch.
Proof.
  destruct (@_doExecute host emptyDoc undoOfUser None) as [[d c] o] eqn:E.
  pose proof E as E'. vm_compute in E'. injection E' as _ _ Eo. subst o.
  do 4 eexists. split; [reflexivity|].
  destruct (proj2 doExecute_restores_selection _ _ _ _ _ _ _ E)
    as (item & d0 & Ht & Hub & _).
  vm_compute in Ht. injection Ht as <-. exact Hub.
Defined.

(** C5 counterexample: [fixH1] is the only history delta targeting [fixU]'s
    target (offset 5) and moves 2 nodes, yet the post-fix moves [fixU]'s target
    to offset 10: after the shift by 2 its target equals [fixH2]'s, which adds
    3 more. *)
Lemma postFix_shifts_add_up :
  targetOf fixU = Some (pos 1 5) /\
  filter (fun h => match targetOf h with Some t => posEqb t (pos 1 5) | None => false end)
    [fixH1; fixH2] = [fixH1] /\
  postFix fixOrig [fixU] [fixH1; fixH2] =
    Some [moveDelta 500 (pos 1 9) (pos 1 10) 1 None].
Proof. split; [reflexivity|]. split; vm_compute; reflexivity. Qed.

(** C5 witness: one eligible history delta with the same target shifts by 2. *)
Lemma postFix_reversion_moves_only_witness :
  postFixStep fixOrig fixU fixH1 = Some (moveDelta 500 (pos 1 9) (pos 1 7) 1 None).
Proof.
  refine (eq_trans
    (proj2 (proj2 (proj2 (proj2 postFix_reversion_moves_only)))
       fixOrig fixU fixH1 MtMove (pos 1 9) (pos 1 5) 1 (pos 1 5) []
       MtMove (pos 1 0) (pos 1 5) 2 (pos 1 5) []
       (moveDelta 400 (pos 1 8) (pos 1 30) 1 None) (moveDelta 401 (pos 1 1) (pos 1 30) 1 None)
       (MoveOperation MtMove (pos 1 8) (pos 1 30) 1 (pos 1 30)) []
       (MoveOperation MtMove (pos 1 1) (pos 1 30) 1 (pos 1 30)) []
       (pos 1 8) (pos 1 1) _ _ _ _ _ _ _ _ _ _) _);
  vm_compute; reflexivity.
Defined.

(** C6 counterexample: with [otherBatch] as target, which is not on the stack,
    the step removes the top item and applies its reversal. *)
Lemma doExecute_unknown_target_consumes_top :
  ~ In (bid otherBatch) (itemIds undoOfUser) /\ items undoOfUser <> [] /\
  items (snd (fst (@_doExecute host emptyDoc undoOfUser (Some otherBatch)))) = [] /\
  applied (fst (fst (@_doExecute host emptyDoc undoOfUser (Some otherBatch)))) <> [].
Proof.
  split; [vm_compute; intros [E|[]]; discriminate|].
  split; [vm_compute; discriminate|].
  split; [vm_compute; reflexivity|].
  vm_compute. discriminate.
Defined.

(** C6 witness. *)
Lemma doExecute_empty_or_unknown_target_witness :
  fst (fst (@_doExecute host emptyDoc undoOfUser (Some otherBatch))) =
    fst (fst (@_doExecute host emptyDoc undoOfUser None)) /\
  items (snd (fst (@_doExecute host emptyDoc undoOfUser (Some otherBatch)))) =
    items (snd (fst (@_doExecute host emptyDoc undoOfUser None))) /\
  snd (@_doExecute host emptyDoc undoOfUser (Some otherBatch)) =
    snd (@_doExecute host emptyDoc undoOfUser None).
Proof.
  apply (proj2 (@doExecute_empty_or_unknown_target host) emptyDoc undoOfUser otherBatch).
  vm_compute. intros [E|[]]. discriminate.
Defined.

(** C9 counterexample: [detachedBatch] touches only root 4, not the document
    root 1, and is recorded on the undo stack. *)
Lemma changeListener_records_detached_batch :
  touchesDocumentRoot (fun r => r =? 1) detachedBatch = false /\
  In (bid detachedBatch)
    (itemIds (fst (@changeListener host emptyDoc (newUndoCommand "undo")
                     (newUndoCommand "redo") detachedBatch))).
Proof. split; vm_compute; [reflexivity | now left]. Qed.

(** C9 witness. *)
Lemma changeListener_records_without_root_check_witness :
  items (fst (@changeListener host emptyDoc (newUndoCommand "undo") (newUndoCommand "redo")
                detachedBatch)) =
  items (newUndoCommand "undo") ++
    [ {| ibatch := detachedBatch;
         iselection := {| ranges := selRanges emptyDoc;
                          isBackward := selBackward emptyDoc |} |} ].
Proof.
  apply (@changeListener_records_without_root_check host emptyDoc _ _ detachedBatch);
    reflexivity.
Defined.

(** C10 counterexample: after undoing [moveBatch2], the command still maps
    the rebased delta 1012 to [move12]; undoing [moveBatch1] next reads that
    entry for the history delta 1012 and shifts the move (target offset 8),
    which it does not do with an empty map (target offset 5). *)
Lemma originalDeltas_consulted_later :
  let r1 := @_doExecute host movesDoc movesCommand None in
  let c1 := snd (fst r1) in
  let d1 := fst (fst r1) in
  lookupOriginal (originalDeltas c1) 1012 = Some move12 /\
  fst (fst (@_doExecute host d1 c1 None)) <>
  fst (fst (@_doExecute host d1 {| items := items c1; batchRegistry := batchRegistry c1;
                             ctype := ctype c1; originalDeltas := [] |} None)).
Proof. split; vm_compute; [reflexivity | discriminate]. Qed.

(** C10 witness. *)
Lemma originalDeltas_outlive_invocation_witness :
  exists ub rb d,
    snd (@_doExecute host emptyDoc undoOfUser None) = Returned (ub, rb) /\
    In d (deltas rb) /\
    exists d0,
      lookupOriginal (originalDeltas (snd (fst (@_doExecute host emptyDoc undoOfUser None)))) (did d)
        = Some d0 /\ In d0 (deltas ub).
Proof.
  destruct (@_doExecute host emptyDoc undoOfUser None) as [[dc c] o] eqn:E.
  pose proof E as E'. vm_compute in E'. injection E' as _ _ Eo. subst o.
  pose proof (proj2 (@originalDeltas_outlive_invocation host emptyDoc undoOfUser None)) as T.
  rewrite E in T.
  do 3 eexists. split; [reflexivity|]. split; [simpl; left; reflexivity|].
  eapply T; [reflexivity | simpl; left; reflexivity].
Defined.

(** X1 witness. *)
Lemma checkEnabled_after_add_and_clear_witness :
  _checkEnabled (@addBatch host emptyDoc (newUndoCommand "undo") userBatch) = true /\
  _checkEnabled (clearStack (newUndoCommand "undo")) = false.
Proof. apply (@checkEnabled_after_add_and_clear host). reflexivity. Defined.

(** X2 witness. *)
Lemma reachable_stack_unique_registered_witness :
  NoDup (itemIds undoOfUser) /\ incl (itemIds undoOfUser) (batchRegistry undoOfUser).
Proof.
  apply (@reachable_stack_unique_registered host).
  apply reachable_addBatch, reachable_new.
Defined.

(** X3 witness: undoing [userBatch] by name unregisters it. *)
Lemma doExecute_target_removes_its_item_witness :
  registryHas (snd (fst (@_doExecute host emptyDoc undoOfUser (Some userBatch)))) userBatch
    = false.
Proof.
  pose proof (@doExecute_target_removes_its_item host emptyDoc undoOfUser userBatch
                (reachable_addBatch _ _ _ (reachable_new _))
                ltac:(vm_compute; now left)) as T.
  cbv zeta in T. exact (proj1 (proj2 T)).
Defined.

(** X4 witness. *)
Lemma doExecute_pops_last_witness :
  items (snd (fst (@_doExecute host emptyDoc undoOfUser None))) = [].
Proof.
  refine (proj1 (@doExecute_pops_last host emptyDoc undoOfUser []
    {| ibatch := userBatch;
       iselection := {| ranges := selRanges emptyDoc; isBackward := selBackward emptyDoc |} |}
    _)).
  vm_compute. reflexivity.
Defined.

(** X5 witness. *)
Lemma doExecute_empty_batch_throws_witness :
  @_doExecute host emptyDoc (@addBatch host emptyDoc (newUndoCommand "undo") emptyBatch) None =
  (emptyDoc, {| items := []; batchRegistry := [10]; ctype := "undo";
                originalDeltas := [] |}, Thrown).
Proof.
  apply (@doExecute_empty_batch_throws host emptyDoc
           (@addBatch host emptyDoc (newUndoCommand "undo") emptyBatch) []
           {| ibatch := emptyBatch;
              iselection := {| ranges := selRanges emptyDoc;
                               isBackward := selBackward emptyDoc |} |});
    vm_compute; reflexivity.
Defined.

(** X6 witness: the batch reverting [userBatch] goes to the redo command. *)
Lemma reversion_batch_goes_to_other_stack_witness :
  exists doc' c' ub rb,
    @_doExecute host emptyDoc undoOfUser None = (doc', c', Returned (ub, rb)) /\
    @changeListener host emptyDoc (newUndoCommand "undo") (newUndoCommand "redo") rb =
      (newUndoCommand "undo", @addBatch host emptyDoc (newUndoCommand "redo") rb).
Proof.
  destruct (@_doExecute host emptyDoc undoOfUser None) as [[d c] o] eqn:E.
  pose proof E as E'. vm_compute in E'. injection E' as _ _ Eo. subst o.
  do 4 eexists. split; [reflexivity|].
  apply (proj1 (@reversion_batch_goes_to_other_stack host _ _ _ _ _ _ _ emptyDoc
                  (newUndoCommand "undo") (newUndoCommand "redo") E)).
  reflexivity.
Defined.

(** X7 witness. *)
Lemma postFix_only_shifts_targets_witness :
  Forall2 shiftedBy [fixU] [moveDelta 500 (pos 1 9) (pos 1 10) 1 None].
Proof.
  apply (@postFix_only_shifts_targets host fixOrig [fixU] [fixH1; fixH2]).
  vm_compute. reflexivity.
Defined.

(** X8 witness. *)
Lemma transformRange_other_operations_witness :
  @transformRange host wideRange [attrDelta] = Some wideRange.
Proof.
  rewrite (@transformRange_other_operations host wideRange [attrDelta]); [reflexivity|].
  intros d o [<-|[]] [<-|[]]. exists [1]. reflexivity.
Defined.

(** X9 witness. *)
Lemma transformRange_bounds_from_pieces_witness :
  In (pos 1 1) (map start (@transformByDeltas host wideRange [insertInside])).
Proof.
  exact (proj1 (@transformRange_bounds_from_pieces host wideRange [insertInside]
                  {| start := pos 1 1; end_ := pos 1 4 |} ltac:(vm_compute; reflexivity))).
Defined.

(** X10 witness: adding [otherBatch] keeps the ranges saved for [userBatch]. *)
Lemma old_addBatch_pushes_witness :
  Old.selectionGet (Old.batchSelection oldOfTwo) 7 =
  Old.selectionGet
    (Old.batchSelection (@Old.addBatch host emptyDoc Old.newUndoCommand userBatch)) 7.
Proof.
  apply (proj1 (proj2 (proj2 (@old_addBatch_pushes host emptyDoc
           (@Old.addBatch host emptyDoc Old.newUndoCommand userBatch) otherBatch))) 7).
  cbv. discriminate.
Defined.

(** X11 witness: index 0 removes the first batch. *)
Lemma old_doExecute_index_or_last_witness :
  Old.batchStack (snd (fst (@Old._doExecute host emptyDoc oldOfTwo (Some 0%Z)))) =
    [otherBatch].
Proof.
  exact (proj1 (proj1 (@old_doExecute_index_or_last host emptyDoc oldOfTwo (Some 0%Z))
                  0%Z eq_refl ltac:(split; [apply Z.le_refl | reflexivity]))).
Defined.

(** X12 witness. *)
Lemma old_reachable_never_throws_witness :
  exists doc' c' ub, @Old._doExecute host emptyDoc oldOfTwo None = (doc', c', Returned ub).
Proof.
  apply (proj2 (@old_reachable_never_throws host oldOfTwo emptyDoc None
                  (Old.reachable_addBatch _ _ _ (Old.reachable_addBatch _ _ _ Old.reachable_new)))).
  - vm_compute. discriminate.
  - intros b [<-|[<-|[]]]; cbv; discriminate.
Defined.

End Runs.
